(** * satellite: the monitoring agent (agent/agent.go)

    A shallow embedding of the agent runtime: the data model of node,
    member and system statuses, the checker registry and its sequential
    sweep, local and cluster status collection, the latest-local-status
    slot, and the control skeleton of the status-update loop. *)

From Stdlib Require Import ZArith List Lia.
From stdpp Require Import base option strings pretty list gmap.
Import ListNotations.
Local Open Scope string_scope.
Local Open Scope list_scope.

(** ** Errors (trace.Wrap keeps the cause and may add a message) *)

Inductive error : Type :=
| ErrNew (msg : string)
| ErrWrap (cause : error) (msg : string).

Module trace.
Definition Wrap (e : error) (msg : string) : error := ErrWrap e msg.
End trace.

(** ** Protocol messages (agentpb) *)

Module pb.

Inductive Probe_Type : Type :=
| Probe_Unknown | Probe_Running | Probe_Failed | Probe_Terminated.

Record Probe : Type := mkProbe {
  Probe_Checker : string;
  Probe_Detail : string;
  Probe_Status : Probe_Type;
  Probe_Error : string
}.

Inductive NodeStatus_Type : Type :=
| NodeStatus_Unknown | NodeStatus_Running | NodeStatus_Degraded.

Inductive MemberStatus_Type : Type :=
| MemberStatus_None | MemberStatus_Alive | MemberStatus_Leaving
| MemberStatus_Left | MemberStatus_Failed.

Inductive SystemStatus_Type : Type :=
| SystemStatus_Unknown | SystemStatus_Running | SystemStatus_Degraded.

Record MemberStatus : Type := mkMemberStatus {
  MemberStatus_Name : string;
  MemberStatus_Addr : string;
  MemberStatus_Status : MemberStatus_Type;
  MemberStatus_Tags : gmap string string
}.

(** Pointer-valued fields ([*pb.MemberStatus]) are options: [None] is
    the nil pointer. *)
Record NodeStatus : Type := mkNodeStatus {
  NodeStatus_Name : string;
  NodeStatus_Status : NodeStatus_Type;
  NodeStatus_MemberStatus : option MemberStatus;
  NodeStatus_Probes : list Probe
}.

Record SystemStatus : Type := mkSystemStatus {
  SystemStatus_Status : SystemStatus_Type;
  SystemStatus_Timestamp : Z;
  SystemStatus_Nodes : list (option NodeStatus)
}.

End pb.

(** ** The probes accumulator (package health) *)

Module health.

(** Modelled from the spec: the probes accumulator ([health.Probes],
    package agent/health), a slice of probes that keeps insertion
    order; [Add] appends a probe and [GetProbes] is the snapshot. *)
Definition Probes : Type := list pb.Probe.

Definition Add (reporter : Probes) (probe : pb.Probe) : Probes :=
  reporter ++ [probe].

Definition GetProbes (reporter : Probes) : list pb.Probe := reporter.

Definition is_running (p : pb.Probe) : bool :=
  match pb.Probe_Status p with pb.Probe_Running => true | _ => false end.

(** Modelled from the spec: the rollup of the accumulator
    ([health.Probes.Status], package agent/health): if any probe has a
    status other than Running the result is Degraded; if no probe has
    been added it is Unknown; otherwise it is Healthy (the running
    node status). *)
Definition Status (reporter : Probes) : pb.NodeStatus_Type :=
  if negb (forallb is_running reporter) then pb.NodeStatus_Degraded
  else match reporter with
       | [] => pb.NodeStatus_Unknown
       | _ :: _ => pb.NodeStatus_Running
       end.

(** Modelled from the spec: a checker ([health.Checker], package
    agent/health) is consumed through [Name] and [Check] only, and
    [Check] reports every outcome to the accumulator through [Add]: a
    checker is the sequence of probes it reports. *)
Record Checker : Type := mkChecker {
  Name : string;
  reports : list pb.Probe
}.

Definition Check (c : Checker) (reporter : Probes) : Probes :=
  fold_left Add (reports c) reporter.

Definition Checkers : Type := list Checker.

End health.

(** ** The membership provider (serf client) *)

Module serf.

(** [Addr] holds the textual form of the member's IP address
    ([member.Addr.String()]), the only way the agent reads it. *)
Record Member : Type := mkMember {
  Name : string;
  Addr : string;
  Port : N;
  Tags : gmap string string;
  Status : string
}.

End serf.

(** The part of the serf client the agent calls: the outcome of member
    enumeration and of closing the client. *)
Record serfClient : Type := mkSerfClient {
  serf_Members : error + list serf.Member;
  serf_Close : option error
}.

(** ** Contexts *)

Inductive ctxErr : Type := Canceled | DeadlineExceeded.

(** A context is live ([None]) or done with a cause. *)
Record Context : Type := mkContext {
  ctx_Err : option ctxErr
}.

Definition Background : Context := mkContext None.

(** ** Peer RPC client *)

Record client : Type := mkClient {
  client_LocalStatus : Context -> error + pb.NodeStatus
}.

(** ** Channels that are only ever closed ([chan struct{}]) *)

Inductive doneChan : Type :=
| ChanNil      (* never made: Start has not run *)
| ChanOpen
| ChanClosed.

(** ** The status cache *)

Module cache.

(** Modelled from the spec: the status cache (package agent/cache).
    [update_status] stores the status, and [recent_status] returns the
    last stored value; [writes] counts the calls of [UpdateStatus].
    The outcome of a write is the cache's own: [failing] makes every
    write return an error and store nothing. *)
Record Cache : Type := mkCache {
  stored : option pb.SystemStatus;
  writes : nat;
  failing : option error
}.

Definition UpdateStatus (c : Cache) (s : pb.SystemStatus)
  : Cache * option error :=
  match failing c with
  | Some e => (mkCache (stored c) (S (writes c)) (failing c), Some e)
  | None => (mkCache (Some s) (S (writes c)) (failing c), None)
  end.

Definition RecentStatus (c : Cache) : option pb.SystemStatus := stored c.

End cache.

(** ** The agent *)

(** What the agent writes to its log ([log.Infof]), one constructor per
    call site. *)
Inductive logEntry : Type :=
| LogRunningChecker (checker : string)
| LogStartedCollecting (n : nat) (members : list serf.Member)
| LogRetrieved (member : serf.Member) (status : option pb.NodeStatus)
| LogFailedQuery (member : string) (addr : string) (err : error)
| LogErrCollecting (err : error)
| LogErrCache (err : error)
| LogTimedOut.

Record agent : Type := mkAgent {
  Checkers : health.Checkers;
  serf_client : serfClient;
  name : string;
  rpc_serving : bool;
  agent_cache : cache.Cache;
  dialRPC : serf.Member -> error + client;
  done : doneChan;
  mu : bool;                            (* the mutex is held *)
  localStatus : option pb.NodeStatus;
  logged : list logEntry
}.

Definition set_Checkers (cs : health.Checkers) (r : agent) : agent :=
  mkAgent cs (serf_client r) (name r) (rpc_serving r) (agent_cache r)
          (dialRPC r) (done r) (mu r) (localStatus r) (logged r).

Definition set_rpc_serving (b : bool) (r : agent) : agent :=
  mkAgent (Checkers r) (serf_client r) (name r) b (agent_cache r)
          (dialRPC r) (done r) (mu r) (localStatus r) (logged r).

Definition set_cache (c : cache.Cache) (r : agent) : agent :=
  mkAgent (Checkers r) (serf_client r) (name r) (rpc_serving r) c
          (dialRPC r) (done r) (mu r) (localStatus r) (logged r).

Definition set_done (d : doneChan) (r : agent) : agent :=
  mkAgent (Checkers r) (serf_client r) (name r) (rpc_serving r)
          (agent_cache r) (dialRPC r) d (mu r) (localStatus r) (logged r).

Definition set_mu (b : bool) (r : agent) : agent :=
  mkAgent (Checkers r) (serf_client r) (name r) (rpc_serving r)
          (agent_cache r) (dialRPC r) (done r) b (localStatus r) (logged r).

Definition set_localStatus (s : option pb.NodeStatus) (r : agent) : agent :=
  mkAgent (Checkers r) (serf_client r) (name r) (rpc_serving r)
          (agent_cache r) (dialRPC r) (done r) (mu r) s (logged r).

Definition add_log (e : logEntry) (r : agent) : agent :=
  mkAgent (Checkers r) (serf_client r) (name r) (rpc_serving r)
          (agent_cache r) (dialRPC r) (done r) (mu r) (localStatus r)
          (logged r ++ [e]).

(** *** Agent computations

    A method of the agent reads and writes the agent's fields and may
    block for ever (on a held mutex, on a select none of whose cases can
    proceed): a state transformer with [None] for the blocked call. *)

Definition M (A : Type) : Type := agent -> option (A * agent).

Definition ret {A} (a : A) : M A := fun r => Some (a, r).

Definition bind {A B} (c : M A) (k : A -> M B) : M B :=
  fun r => match c r with
           | Some (a, r') => k a r'
           | None => None
           end.

Definition blocked {A} : M A := fun _ => None.

Definition get : M agent := fun r => Some (r, r).

Definition modify (f : agent -> agent) : M unit := fun r => Some (tt, f r).

Notation "'let*' x ':=' c 'in' k" := (bind c (fun x => k))
  (at level 10, x pattern, c at level 100, k at level 200).

Definition Infof (e : logEntry) : M unit := modify (add_log e).

(** [sync.Mutex]: Lock on a held mutex does not return. *)
Definition Lock : M unit :=
  fun r => if mu r then None else Some (tt, set_mu true r).

Definition Unlock : M unit := modify (set_mu false).

(** *** Member status *)

Module MemberStatus.
(** Modelled from the spec: the membership states of a member
    (Alive, Leaving, Left, Failed), the constants [MemberAlive],
    [MemberLeaving], [MemberLeft] and [MemberFailed] of package agent,
    as the membership layer spells them. *)
Definition MemberAlive : string := "alive".
Definition MemberLeaving : string := "leaving".
Definition MemberLeft : string := "left".
Definition MemberFailed : string := "failed".
End MemberStatus.

Definition toMemberStatus (status : string) : pb.MemberStatus_Type :=
  if String.eqb status MemberStatus.MemberAlive then pb.MemberStatus_Alive
  else if String.eqb status MemberStatus.MemberLeaving then pb.MemberStatus_Leaving
  else if String.eqb status MemberStatus.MemberLeft then pb.MemberStatus_Left
  else if String.eqb status MemberStatus.MemberFailed then pb.MemberStatus_Failed
  else pb.MemberStatus_None.

(** [fmt.Sprintf("%s:%d", member.Addr.String(), member.Port)] *)
Definition statusFromMember (member : serf.Member) : pb.MemberStatus :=
  pb.mkMemberStatus (serf.Name member)
                    (serf.Addr member +:+ ":" +:+ pretty (serf.Port member))
                    (toMemberStatus (serf.Status member))
                    (serf.Tags member).

Definition unknownNodeStatus (member : serf.Member) : pb.NodeStatus :=
  pb.mkNodeStatus (serf.Name member) pb.NodeStatus_Unknown
                  (Some (statusFromMember member)) [].

Definition emptyNodeStatus (name : string) : pb.NodeStatus :=
  pb.mkNodeStatus name pb.NodeStatus_Unknown
                  (Some (pb.mkMemberStatus name "" pb.MemberStatus_None ∅)) [].

Definition emptySystemStatus : pb.SystemStatus :=
  pb.mkSystemStatus pb.SystemStatus_Unknown 0 [].

(** Modelled from the spec: [add(checker)] of the checker registry
    ([health.Checkers.AddChecker], package agent/health) appends the
    checker to the ordered registry; duplicates are permitted. *)
Definition AddChecker (c : health.Checker) : M unit :=
  modify (fun r => set_Checkers (Checkers r ++ [c]) r).

(** *** Local status *)

(** The loop of [runChecks]: every checker of the registry, in order, is
    logged and handed the one reporter. *)
Fixpoint runCheckers (cs : health.Checkers) (reporter : health.Probes)
  : M health.Probes :=
  match cs with
  | [] => ret reporter
  | c :: cs' =>
      let* _ := Infof (LogRunningChecker (health.Name c)) in
      runCheckers cs' (health.Check c reporter)
  end.

(** [runChecks] takes the context and does not read it. *)
Definition runChecks (ctx : Context) : M pb.NodeStatus :=
  let* r := get in
  let* reporter := runCheckers (Checkers r) [] in
  ret (pb.mkNodeStatus (name r) (health.Status reporter) None
                       (health.GetProbes reporter)).

Definition with_MemberStatus (ms : pb.MemberStatus) (s : pb.NodeStatus)
  : pb.NodeStatus :=
  pb.mkNodeStatus (pb.NodeStatus_Name s) (pb.NodeStatus_Status s) (Some ms)
                  (pb.NodeStatus_Probes s).

(** [err] is the named result, still nil when it is tested. *)
Definition collectLocalStatus (ctx : Context) (local : serf.Member)
  : M (option pb.NodeStatus * option error) :=
  let err : option error := None in
  let* status := runChecks ctx in
  match err with
  | Some e => ret (None, Some (trace.Wrap e ""))
  | None =>
      let status := with_MemberStatus (statusFromMember local) status in
      let* _ := Lock in
      let* _ := modify (set_localStatus (Some status)) in
      let* _ := Unlock in
      ret (Some status, None)
  end.

Definition recentLocalStatus : M (option pb.NodeStatus) :=
  let* _ := Lock in
  let* r := get in
  let* _ := Unlock in
  ret (localStatus r).

Definition LocalStatus : M (option pb.NodeStatus) := recentLocalStatus.

(** *** The responses channel *)

Record statusResponse : Type := mkStatusResponse {
  resp_NodeStatus : option pb.NodeStatus;
  resp_member : serf.Member;
  resp_err : option error
}.

(** A buffered channel: what has been sent, oldest first, and the
    capacity it was made with. *)
Record chan : Type := mkChan {
  buf : list statusResponse;
  cap : nat
}.

Definition make_chan (n : nat) : chan := mkChan [] n.

Definition can_send (c : chan) : bool := Nat.ltb (length (buf c)) (cap c).

Definition send (c : chan) (x : statusResponse) : chan :=
  mkChan (buf c ++ [x]) (cap c).

Definition is_closed (d : doneChan) : bool :=
  match d with ChanClosed => true | _ => false end.

(** [select { case respc <- resp: case <-r.done: }].  A case that can
    proceed is taken; when both can, [pick] is the runtime's choice
    ([true] for the send); when none can, the task blocks. *)
Definition select_send (pick : bool) (respc : chan) (resp : statusResponse)
  : M chan :=
  let* r := get in
  match can_send respc, is_closed (done r) with
  | true, false => ret (send respc resp)
  | false, true => ret respc
  | true, true => ret (if pick then send respc resp else respc)
  | false, false => blocked
  end.

Definition getLocalStatus (ctx : Context) (local : serf.Member)
                          (pick : bool) (respc : chan) : M chan :=
  let* (status, err) := collectLocalStatus ctx local in
  let resp :=
    match err with
    | Some e => mkStatusResponse None local (Some (trace.Wrap e ""))
    | None => mkStatusResponse status local None
    end in
  select_send pick respc resp.

Definition getStatusFrom (ctx : Context) (member : serf.Member)
                         (pick : bool) (respc : chan) : M chan :=
  let* r := get in
  let resp :=
    match dialRPC r member with
    | inl e => mkStatusResponse None member (Some (trace.Wrap e ""))
    | inr client =>
        match client_LocalStatus client ctx with
        | inl e => mkStatusResponse None member (Some (trace.Wrap e ""))
        | inr status => mkStatusResponse (Some status) member None
        end
    end in
  select_send pick respc resp.

(** The task [collectStatus] starts for a member. *)
Definition task (ctx : Context) (member : serf.Member)
                (pick : bool) (respc : chan) : M chan :=
  let* r := get in
  if String.eqb (name r) (serf.Name member)
  then getLocalStatus ctx member pick respc
  else getStatusFrom ctx member pick respc.

(** *** Cluster status *)

(** The tasks run concurrently.  A schedule fixes one run: each entry
    names the pending task that reaches its select next (an index into
    the tasks still pending, taken modulo their number) and the choice
    of that select.  When the schedule is used up the remaining tasks
    finish in member order, their selects choosing the send. *)
Definition schedule : Type := list (nat * bool).

Fixpoint runInOrder (ctx : Context) (pending : list serf.Member)
                    (respc : chan) : M chan :=
  match pending with
  | [] => ret respc
  | member :: rest =>
      let* respc' := task ctx member true respc in
      runInOrder ctx rest respc'
  end.

Fixpoint runTasks (ctx : Context) (sched : schedule)
                  (pending : list serf.Member) (respc : chan) : M chan :=
  match sched with
  | [] => runInOrder ctx pending respc
  | (i, pick) :: sched' =>
      let k := i mod length pending in
      match pending !! k with
      | None => ret respc
      | Some member =>
          let* respc' := task ctx member pick respc in
          runTasks ctx sched' (delete k pending) respc'
      end
  end.

Definition append_node (s : pb.SystemStatus) (n : option pb.NodeStatus)
  : pb.SystemStatus :=
  pb.mkSystemStatus (pb.SystemStatus_Status s) (pb.SystemStatus_Timestamp s)
                    (pb.SystemStatus_Nodes s ++ [n]).

(** What the drain loop appends for a response. *)
Definition node_of_response (status : statusResponse) : option pb.NodeStatus :=
  match resp_err status with
  | Some _ => Some (unknownNodeStatus (resp_member status))
  | None => resp_NodeStatus status
  end.

(** [for status := range statuses { ... }] on the closed channel. *)
Fixpoint drain (statuses : list statusResponse) (systemStatus : pb.SystemStatus)
  : M pb.SystemStatus :=
  match statuses with
  | [] => ret systemStatus
  | status :: rest =>
      let* _ := Infof (LogRetrieved (resp_member status) (resp_NodeStatus status)) in
      let nodeStatus := resp_NodeStatus status in
      let* nodeStatus :=
        match resp_err status with
        | Some e =>
            let* _ := Infof (LogFailedQuery (serf.Name (resp_member status))
                                            (serf.Addr (resp_member status)) e) in
            ret (Some (unknownNodeStatus (resp_member status)))
        | None => ret nodeStatus
        end in
      drain rest (append_node systemStatus nodeStatus)
  end.

Definition node_is (t : pb.NodeStatus_Type) (n : option pb.NodeStatus) : bool :=
  match n with
  | Some n =>
      match pb.NodeStatus_Status n, t with
      | pb.NodeStatus_Unknown, pb.NodeStatus_Unknown
      | pb.NodeStatus_Running, pb.NodeStatus_Running
      | pb.NodeStatus_Degraded, pb.NodeStatus_Degraded => true
      | _, _ => false
      end
  | None => false
  end.

Definition member_alive (n : option pb.NodeStatus) : bool :=
  match n with
  | Some n =>
      match pb.NodeStatus_MemberStatus n with
      | Some ms =>
          match pb.MemberStatus_Status ms with
          | pb.MemberStatus_Alive => true
          | _ => false
          end
      | None => false
      end
  | None => false
  end.

(** Modelled from the spec: the rollup of a system status
    ([setSystemStatus], package agent), which sets the status field and
    nothing else: no nodes, Unknown; every node Healthy and every member
    Alive, Healthy; a node Unknown and none Degraded, Unknown; otherwise
    Degraded. *)
Definition setSystemStatus (s : pb.SystemStatus) : pb.SystemStatus :=
  let nodes := pb.SystemStatus_Nodes s in
  let status :=
    match nodes with
    | [] => pb.SystemStatus_Unknown
    | _ :: _ =>
        if forallb (fun n => node_is pb.NodeStatus_Running n && member_alive n) nodes
        then pb.SystemStatus_Running
        else if existsb (node_is pb.NodeStatus_Unknown) nodes
                && negb (existsb (node_is pb.NodeStatus_Degraded) nodes)
        then pb.SystemStatus_Unknown
        else pb.SystemStatus_Degraded
    end in
  pb.mkSystemStatus status (pb.SystemStatus_Timestamp s) nodes.

(** The fan-out of [collectStatus]: the channel is made with room for
    one response per member, one task per member is started, and
    [wg.Wait] returns when every task has returned; the result is the
    contents of the channel when it is closed. *)
Definition collectResponses (ctx : Context) (sched : schedule)
                            (members : list serf.Member)
  : M (list statusResponse) :=
  let statuses := make_chan (length members) in
  let* statuses := runTasks ctx sched members statuses in
  ret (buf statuses).

(** [now] is the reading of [pb.NewTimestamp()]. *)
Definition collectStatus (ctx : Context) (now : Z) (sched : schedule)
  : M (error + pb.SystemStatus) :=
  let systemStatus := pb.mkSystemStatus pb.SystemStatus_Unknown now [] in
  let* r := get in
  match serf_Members (serf_client r) with
  | inl err => ret (inl (trace.Wrap err "failed to query serf members"))
  | inr members =>
      let* _ := Infof (LogStartedCollecting (length members) members) in
      let* statuses := collectResponses ctx sched members in
      let* systemStatus := drain statuses systemStatus in
      ret (inr (setSystemStatus systemStatus))
  end.

(** The body of the task the status-update loop starts on a tick
    (without its deferred [cancel]). *)
Definition collectionTask (ctx : Context) (now : Z) (sched : schedule)
  : M unit :=
  let* res := collectStatus ctx now sched in
  match res with
  | inl err => Infof (LogErrCollecting err)
  | inr status =>
      let* r := get in
      let (c, err) := cache.UpdateStatus (agent_cache r) status in
      let* _ := modify (set_cache c) in
      match err with
      | Some e => Infof (LogErrCache e)
      | None => ret tt
      end
  end.

Definition recentStatus : M (option pb.SystemStatus) :=
  let* r := get in ret (cache.RecentStatus (agent_cache r)).

(** *** Construction and lifecycle *)

Record Config : Type := mkConfig {
  cfg_Name : string;
  cfg_RPCAddrs : list string;
  cfg_SerfRPCAddr : string;
  cfg_Peers : list string;
  cfg_Tags : option (gmap string string);   (* [None]: a nil map *)
  cfg_Cache : cache.Cache
}.

(** What [New] meets outside the agent: connecting to serf, updating the
    tags, binding an address, and the default factory of peer clients. *)
Record Outside : Type := mkOutside {
  ClientFromConfig : string -> error + serfClient;
  UpdateTags : gmap string string -> option error;
  Listen : string -> option error;
  defaultDialRPC : serf.Member -> error + client
}.

Fixpoint listenAll (o : Outside) (addrs : list string) : option error :=
  match addrs with
  | [] => None
  | addr :: rest =>
      match Listen o addr with
      | Some err => Some (trace.Wrap err "")
      | None => listenAll o rest
      end
  end.

Definition New (config : Config) (o : Outside) : error + agent :=
  match ClientFromConfig o (cfg_SerfRPCAddr config) with
  | inl err => inl (trace.Wrap err "failed to connect to serf")
  | inr client =>
      let tags := match cfg_Tags config with Some t => t | None => ∅ end in
      match UpdateTags o tags with
      | Some err => inl (trace.Wrap err "failed to update serf agent tags")
      | None =>
          match listenAll o (cfg_RPCAddrs config) with
          | Some err => inl err
          | None =>
              inr (mkAgent [] client (cfg_Name config) true
                           (cfg_Cache config) (defaultDialRPC o) ChanNil false
                           (Some (emptyNodeStatus (cfg_Name config))) [])
          end
      end
  end.

(** A call returns or panics. *)
Inductive outcome (A : Type) : Type :=
| Returns (a : A)
| Panics (msg : string).
Arguments Returns {A} a.
Arguments Panics {A} msg.

(** [close(r.done)] panics on a nil and on a closed channel. *)
Definition Close : M (outcome (option error)) :=
  let* _ := modify (set_rpc_serving false) in
  let* r := get in
  match done r with
  | ChanNil => ret (Panics "close of nil channel")
  | ChanClosed => ret (Panics "close of closed channel")
  | ChanOpen =>
      let* _ := modify (set_done ChanClosed) in
      match serf_Close (serf_client r) with
      | Some err => ret (Returns (Some (trace.Wrap err "")))
      | None => ret (Returns None)
      end
  end.

(** ** The status-update loop

    The loop, the collections it starts, the timers and [Close] run
    concurrently; a run is a sequence of events, each one atomic. *)

Inductive loopPC : Type :=
| NotStarted
| AtTick            (* the outer select: a tick or done *)
| AtWait (n : nat)  (* the inner select: context [n] done, or done *)
| Exited.

Record system : Type := mkSystem {
  the_agent : agent;
  pc : loopPC;
  ticked : bool;              (* the channel of [clock.After] is ready *)
  contexts : list Context;    (* the contexts made so far, oldest first *)
  inflight : list nat         (* collections started and not returned *)
}.

Inductive event : Type :=
| EvStart                               (* Start() *)
| EvTimer                               (* 30 s have passed since the select *)
| EvLoop (pick : bool)                  (* the loop leaves its select *)
| EvDeadline (n : nat)                  (* 10 s have passed for context n *)
| EvCollected (n : nat) (now : Z) (sched : schedule)
                                        (* collection n runs and returns *)
| EvClose                               (* Close() *)
| EvAddChecker (c : health.Checker)     (* AddChecker(c) *)
| EvLocalStatus.                        (* a LocalStatus call is served *)

Definition ctx_done (c : Context) : bool :=
  match ctx_Err c with Some _ => true | None => false end.

(** Cancelling or timing out a context that is done changes nothing. *)
Definition finish_ctx (why : ctxErr) (c : Context) : Context :=
  match ctx_Err c with
  | Some _ => c
  | None => mkContext (Some why)
  end.

Definition finish_nth (why : ctxErr) (n : nat) (cs : list Context)
  : list Context :=
  match cs !! n with
  | Some c => <[n := finish_ctx why c]> cs
  | None => cs
  end.

Definition remove_id (n : nat) (l : list nat) : list nat :=
  List.filter (fun m => negb (Nat.eqb m n)) l.

(** One turn of the loop at a select; [pick] decides when both cases
    can proceed (at the outer select [true] is the tick, at the inner
    one [true] is [ctx.Done()]). *)
Definition loop_step (pick : bool) (s : system) : option system :=
  let closed := is_closed (done (the_agent s)) in
  match pc s with
  | AtTick =>
      let tick :=
        let n := length (contexts s) in
        mkSystem (the_agent s) (AtWait n) false
                 (contexts s ++ [mkContext None]) (n :: inflight s) in
      let leave :=
        mkSystem (the_agent s) Exited false (contexts s) (inflight s) in
      match ticked s, closed with
      | true, true => Some (if pick then tick else leave)
      | true, false => Some tick
      | false, true => Some leave
      | false, false => None
      end
  | AtWait n =>
      match contexts s !! n with
      | None => None
      | Some c =>
          let next :=
            let r :=
              match ctx_Err c with
              | Some DeadlineExceeded => add_log LogTimedOut (the_agent s)
              | _ => the_agent s
              end in
            mkSystem r AtTick false (contexts s) (inflight s) in
          let leave :=
            mkSystem (the_agent s) Exited false
                     (finish_nth Canceled n (contexts s)) (inflight s) in
          match ctx_done c, closed with
          | true, true => Some (if pick then next else leave)
          | true, false => Some next
          | false, true => Some leave
          | false, false => None
          end
      end
  | NotStarted | Exited => None
  end.

(** An event that cannot happen in a state has no successor. *)
Definition step (e : event) (s : system) : option system :=
  match e with
  | EvStart =>
      match pc s with
      | NotStarted =>
          Some (mkSystem (set_done ChanOpen (the_agent s)) AtTick false
                         (contexts s) (inflight s))
      | _ => None
      end
  | EvTimer =>
      match pc s with
      | AtTick => Some (mkSystem (the_agent s) AtTick true
                                 (contexts s) (inflight s))
      | _ => None
      end
  | EvLoop pick => loop_step pick s
  | EvDeadline n =>
      match contexts s !! n with
      | Some c =>
          if ctx_done c then None
          else Some (mkSystem (the_agent s) (pc s) (ticked s)
                              (finish_nth DeadlineExceeded n (contexts s))
                              (inflight s))
      | None => None
      end
  | EvCollected n now sched =>
      match contexts s !! n with
      | Some c =>
          if bool_decide (n ∈ inflight s) then
            match collectionTask c now sched (the_agent s) with
            | Some (_, r) =>
                Some (mkSystem r (pc s) (ticked s)
                               (finish_nth Canceled n (contexts s))
                               (remove_id n (inflight s)))
            | None => None
            end
          else None
      | None => None
      end
  | EvClose =>
      match Close (the_agent s) with
      | Some (Returns _, r) =>
          Some (mkSystem r (pc s) (ticked s) (contexts s) (inflight s))
      | _ => None
      end
  | EvAddChecker c =>
      match AddChecker c (the_agent s) with
      | Some (_, r) =>
          Some (mkSystem r (pc s) (ticked s) (contexts s) (inflight s))
      | None => None
      end
  | EvLocalStatus =>
      match LocalStatus (the_agent s) with
      | Some (_, r) =>
          Some (mkSystem r (pc s) (ticked s) (contexts s) (inflight s))
      | None => None
      end
  end.

Fixpoint run (es : list event) (s : system) : option system :=
  match es with
  | [] => Some s
  | e :: es' =>
      match step e s with
      | Some s' => run es' s'
      | None => None
      end
  end.

Definition initial (r : agent) : system := mkSystem r NotStarted false [] [].

Definition live_inflight (s : system) : list nat :=
  List.filter (fun n => match contexts s !! n with
                        | Some c => negb (ctx_done c)
                        | None => false
                        end) (inflight s).

(** ** Serving the local status over time

    [collectLocalStatus] is two parts, and the mutex covers the second
    only: the sweep of the registry with the member status attached
    (agent.go:291-295), and the write of the slot under the mutex
    (agent.go:296-298).  Between the two the status is a local variable
    of the collection, and other collections and [LocalStatus] calls
    can run. *)

Definition sweepLocal (ctx : Context) (local : serf.Member) : M pb.NodeStatus :=
  let* status := runChecks ctx in
  ret (with_MemberStatus (statusFromMember local) status).

Definition publishLocal (status : pb.NodeStatus) : M unit :=
  let* _ := Lock in
  let* _ := modify (set_localStatus (Some status)) in
  Unlock.

(** What one process does around its local-status slot, in the order it
    happens: the registry's checkers come to report something else,
    collection [id] sweeps, collection [id] publishes what it swept,
    the status of a peer is fetched, a [LocalStatus] call is served. *)
Inductive slotOp : Type :=
| SlRegistry (cs : health.Checkers)
| SlSweep (id : nat) (ctx : Context) (local : serf.Member)
| SlPublish (id : nat)
| SlRemote (ctx : Context) (member : serf.Member) (pick : bool)
| SlServe.

(** The statuses swept and not yet published, by collection, each with
    the number of its sweep (sweeps are numbered from 1 as they start;
    0 is the placeholder [New] stores). *)
Definition sweptStatuses : Type := list (nat * (nat * pb.NodeStatus)).

Fixpoint find_swept (id : nat) (pend : sweptStatuses)
  : option (nat * pb.NodeStatus) :=
  match pend with
  | [] => None
  | (id', x) :: rest => if Nat.eqb id id' then Some x else find_swept id rest
  end.

Definition drop_swept (id : nat) (pend : sweptStatuses) : sweptStatuses :=
  List.filter (fun e => negb (Nat.eqb id (fst e))) pend.

(** A run of slot operations: each served call is recorded with the
    status returned and the number of the sweep that status came from.
    [sweeps] counts the sweeps started, [slot] is the number of the
    sweep whose status the slot holds.  A collection that holds no
    swept status has nothing to publish. *)
Fixpoint serveSlot (ops : list slotOp) (r : agent) (pend : sweptStatuses)
                   (sweeps slot : nat)
  : option (list (nat * option pb.NodeStatus)) :=
  match ops with
  | [] => Some []
  | SlRegistry cs :: ops' => serveSlot ops' (set_Checkers cs r) pend sweeps slot
  | SlSweep id ctx local :: ops' =>
      match sweepLocal ctx local r with
      | Some (status, r') =>
          serveSlot ops' r' ((id, (S sweeps, status)) :: pend) (S sweeps) slot
      | None => None
      end
  | SlPublish id :: ops' =>
      match find_swept id pend with
      | Some (n, status) =>
          match publishLocal status r with
          | Some (_, r') => serveSlot ops' r' (drop_swept id pend) sweeps n
          | None => None
          end
      | None => serveSlot ops' r pend sweeps slot
      end
  | SlRemote ctx member pick :: ops' =>
      match getStatusFrom ctx member pick (make_chan 1) r with
      | Some (_, r') => serveSlot ops' r' pend sweeps slot
      | None => None
      end
  | SlServe :: ops' =>
      match LocalStatus r with
      | Some (v, r') =>
          match serveSlot ops' r' pend sweeps slot with
          | Some out => Some ((slot, v) :: out)
          | None => None
          end
      | None => None
      end
  end.

(** The statuses the publications of a run write to the slot, in the
    order they are written. *)
Fixpoint publishedSlot (ops : list slotOp) (r : agent) (pend : sweptStatuses)
                       (sweeps : nat)
  : list (option pb.NodeStatus) :=
  match ops with
  | [] => []
  | SlRegistry cs :: ops' => publishedSlot ops' (set_Checkers cs r) pend sweeps
  | SlSweep id ctx local :: ops' =>
      match sweepLocal ctx local r with
      | Some (status, r') =>
          publishedSlot ops' r' ((id, (S sweeps, status)) :: pend) (S sweeps)
      | None => []
      end
  | SlPublish id :: ops' =>
      match find_swept id pend with
      | Some (_, status) =>
          match publishLocal status r with
          | Some (_, r') =>
              Some status :: publishedSlot ops' r' (drop_swept id pend) sweeps
          | None => []
          end
      | None => publishedSlot ops' r pend sweeps
      end
  | SlRemote ctx member pick :: ops' =>
      match getStatusFrom ctx member pick (make_chan 1) r with
      | Some (_, r') => publishedSlot ops' r' pend sweeps
      | None => []
      end
  | SlServe :: ops' =>
      match LocalStatus r with
      | Some (_, r') => publishedSlot ops' r' pend sweeps
      | None => []
      end
  end.

Definition is_serve (o : slotOp) : bool :=
  match o with SlServe => true | _ => false end.

(** The number of calls served in a run. *)
Definition serves (ops : list slotOp) : nat := length (List.filter is_serve ops).

Fixpoint nondecreasing (l : list nat) : bool :=
  match l with
  | a :: ((b :: _) as rest) => Nat.leb a b && nondecreasing rest
  | _ => true
  end.

(** ** Statements shared by the proofs *)

(** The fields no collection writes. *)
Definition same_setup (r r' : agent) : Prop :=
  Checkers r' = Checkers r /\ serf_client r' = serf_client r /\
  name r' = name r /\ rpc_serving r' = rpc_serving r /\
  agent_cache r' = agent_cache r /\ dialRPC r' = dialRPC r /\
  done r' = done r /\ mu r' = mu r.

Definition log_checkers (cs : health.Checkers) (r : agent) : agent :=
  fold_left (fun r c => add_log (LogRunningChecker (health.Name c)) r) cs r.

(** The node status a sweep of the registry [cs] yields for [local]. *)
Definition swept (nm : string) (cs : health.Checkers) (local : serf.Member)
  : pb.NodeStatus :=
  pb.mkNodeStatus nm (health.Status (flat_map health.reports cs))
                  (Some (statusFromMember local))
                  (flat_map health.reports cs).

(** A probe that reports the checker [c] failed on cancellation. *)
Definition cancelled_probe_of (c : health.Checker) (p : pb.Probe) : Prop :=
  pb.Probe_Checker p = health.Name c /\
  pb.Probe_Status p = pb.Probe_Failed /\
  pb.Probe_Error p = "cancelled".

(** The response the task for [member] computes in the agent [r]. *)
Definition response_of (ctx : Context) (r : agent) (member : serf.Member)
  : statusResponse :=
  if String.eqb (name r) (serf.Name member)
  then mkStatusResponse (Some (swept (name r) (Checkers r) member)) member None
  else match dialRPC r member with
       | inl e => mkStatusResponse None member (Some (trace.Wrap e ""))
       | inr client =>
           match client_LocalStatus client ctx with
           | inl e => mkStatusResponse None member (Some (trace.Wrap e ""))
           | inr status => mkStatusResponse (Some status) member None
           end
       end.

(** The agent after the task for [member] has computed its response. *)
Definition after_task (r : agent) (member : serf.Member) : agent :=
  if String.eqb (name r) (serf.Name member)
  then set_localStatus (Some (swept (name r) (Checkers r) member))
                       (log_checkers (Checkers r) r)
  else r.

(** What holds of the contexts and collections in every state of a run:
    a context that is not done is the one the loop waits on, the loop
    waits on a context that was made, and the collections in flight are
    distinct and were all started. *)
Definition ctx_inv (s : system) : Prop :=
  (forall n c, contexts s !! n = Some c -> ctx_done c = false ->
               pc s = AtWait n) /\
  (forall n, pc s = AtWait n -> n < length (contexts s)) /\
  NoDup (inflight s) /\
  (forall n, In n (inflight s) -> n < length (contexts s)).

(** What holds of the local-status slot in every state of a run: the
    mutex is free between events and the slot is not nil. *)
Definition slot_inv (s : system) : Prop :=
  mu (the_agent s) = false /\ localStatus (the_agent s) <> None.



(** ** Sample cluster *)

Module Sample.

Definition okProbe : pb.Probe := pb.mkProbe "ok" "" pb.Probe_Running "".
Definition failProbe : pb.Probe :=
  pb.mkProbe "fail" "" pb.Probe_Failed "connection refused".

Definition AlwaysOkChecker : health.Checker := health.mkChecker "ok" [okProbe].
Definition AlwaysFailChecker : health.Checker :=
  health.mkChecker "fail" [failProbe].

Definition a : serf.Member := serf.mkMember "a" "10.0.0.1" 7946 ∅ "alive".
Definition b : serf.Member := serf.mkMember "b" "10.0.0.2" 7946 ∅ "alive".

Definition unreachable : serf.Member -> error + client :=
  fun _ => inl (ErrNew "connection refused").

Definition no_cache : cache.Cache := cache.mkCache None 0 None.

(** Agent "a" of the cluster [a; b], started, with "b" unreachable. *)
Definition agent_a : agent :=
  mkAgent [AlwaysOkChecker] (mkSerfClient (inr [a; b]) None) "a" true
          no_cache unreachable ChanOpen false
          (Some (emptyNodeStatus "a")) [].

(** The same agent after [Close] has closed the done channel. *)
Definition agent_a_closing : agent := set_done ChanClosed agent_a.

(** The same agent with the membership layer down. *)
Definition agent_a_no_serf : agent :=
  mkAgent [AlwaysOkChecker]
          (mkSerfClient (inl (ErrNew "serf down")) None) "a" true
          no_cache unreachable ChanOpen false
          (Some (emptyNodeStatus "a")) [].

(** The same agent whose serf client fails to close. *)
Definition agent_a_bad_close : agent :=
  mkAgent [AlwaysOkChecker]
          (mkSerfClient (inr [a; b]) (Some (ErrNew "broken pipe"))) "a" true
          no_cache unreachable ChanOpen false
          (Some (emptyNodeStatus "a")) [].

Definition cancelled : Context := mkContext (Some Canceled).

Definition config_a : Config :=
  mkConfig "a" ["127.0.0.1:7575"; "10.0.0.1:7575"] "127.0.0.1:7373" [] None
           no_cache.

Definition outside_ok : Outside :=
  mkOutside (fun _ => inr (mkSerfClient (inr [a; b]) None))
            (fun _ => None) (fun _ => None) unreachable.

(** A tick, the collection overruns its deadline, the loop moves on,
    and the next tick starts a second collection. *)
Definition overrun : list event :=
  [EvStart; EvTimer; EvLoop true; EvDeadline 0; EvLoop true;
   EvTimer; EvLoop true].

(** A tick whose collection is still running. *)
Definition collecting : list event := [EvStart; EvTimer; EvLoop true].

(** The tick fires, Close is called, and the loop then leaves its
    select by the tick. *)
Definition late_tick : list event :=
  [EvStart; EvTimer; EvClose; EvLoop true].

(** Collection 0 sweeps while the checker fails, collection 1 sweeps
    after the checker has recovered and publishes first; a call is
    served, then collection 0 publishes, and a call is served again. *)
Definition overtaken : list slotOp :=
  [SlRegistry [AlwaysFailChecker]; SlSweep 0 Background a;
   SlRegistry [AlwaysOkChecker]; SlSweep 1 Background a;
   SlPublish 1; SlServe; SlPublish 0; SlRemote Background b true; SlServe].

End Sample.

(** ** More of the agent *)

(** [Start] makes a fresh done channel and starts the loop; it returns
    nil. *)
Definition Start : M (option error) :=
  let* _ := modify (set_done ChanOpen) in
  ret None.

(** *** [New] and its listeners

    [New] binds the RPC addresses in order and registers a deferred
    function that closes the listeners bound so far when the function's
    variable [err] is not nil.  The loop over the addresses declares an
    [err] of its own ([listener, err := net.Listen(...)]) and [New]
    returns through unnamed results, so the deferred function reads the
    outer [err], the result of [UpdateTags].  A listener is known by the
    address it is bound to. *)

Fixpoint listenLoop (o : Outside) (addrs : list string) (listeners : list string)
  : option error * list string :=
  match addrs with
  | [] => (None, listeners)
  | addr :: rest =>
      match Listen o addr with
      | Some err => (Some (trace.Wrap err ""), listeners)
      | None => listenLoop o rest (listeners ++ [addr])
      end
  end.

(** The deferred function; the result is the listeners left open. *)
Definition closeOnError (err : option error) (listeners : list string)
  : list string :=
  match err with
  | Some _ => []
  | None => listeners
  end.

(** [New] with the listeners that are open when it returns. *)
Definition New_listeners (config : Config) (o : Outside)
  : (error + agent) * list string :=
  match ClientFromConfig o (cfg_SerfRPCAddr config) with
  | inl err => (inl (trace.Wrap err "failed to connect to serf"), [])
  | inr client =>
      let tags := match cfg_Tags config with Some t => t | None => ∅ end in
      let err := UpdateTags o tags in
      match err with
      | Some e => (inl (trace.Wrap e "failed to update serf agent tags"), [])
      | None =>
          let '(failed, listeners) := listenLoop o (cfg_RPCAddrs config) [] in
          let open := closeOnError err listeners in
          match failed with
          | Some e => (inl e, open)
          | None =>
              (inr (mkAgent [] client (cfg_Name config) true
                            (cfg_Cache config) (defaultDialRPC o) ChanNil false
                            (Some (emptyNodeStatus (cfg_Name config))) []),
               open)
          end
      end
  end.

(** *** What a member contributes to a cluster status *)

(** The node [collectStatus] appends for the response of [member]. *)
Definition node_for (ctx : Context) (r : agent) (member : serf.Member)
  : option pb.NodeStatus :=
  node_of_response (response_of ctx r member).

Definition is_local (r : agent) (member : serf.Member) : bool :=
  String.eqb (name r) (serf.Name member).

(** The local-status slot of [r'] after tasks for [pending] ran from
    [r]: untouched when no member is the agent itself, and otherwise the
    status swept for one of the members that are. *)
Definition slot_after (r : agent) (pending : list serf.Member) (r' : agent)
  : Prop :=
  (Forall (fun m => is_local r m = false) pending /\
   localStatus r' = localStatus r) \/
  (exists m, In m pending /\ is_local r m = true /\
             localStatus r' = Some (swept (name r) (Checkers r) m)).

(** The order in which the tasks of a schedule reach their selects: the
    picks of [runTasks], without the tasks. *)
Fixpoint completion_order (sched : schedule) (pending : list serf.Member)
  : list serf.Member :=
  match sched with
  | [] => pending
  | (i, _) :: sched' =>
      let k := i mod length pending in
      match pending !! k with
      | None => []
      | Some member => member :: completion_order sched' (delete k pending)
      end
  end.

(** *** Counting in a run of the loop *)

Definition is_timer (e : event) : bool :=
  match e with EvTimer => true | _ => false end.

Definition is_collected (e : event) : bool :=
  match e with EvCollected _ _ _ => true | _ => false end.

Definition timers (es : list event) : nat := length (List.filter is_timer es).

(** The contexts made so far, and one more when a tick is pending. *)
Definition tick_budget (s : system) : nat :=
  length (contexts s) + (if ticked s then 1 else 0).

(** ** Checkers of the monitoring package (monitoring/checkers.go) *)

Module monitoring.

(** What checks the body of an HTTP response. *)
Inductive responseChecker : Type := kubeHealthz | etcdChecker | dockerChecker.

(** An HTTP transport ([*http.Transport]), known by its name. *)
Definition Transport : Type := string.

(** The checkers the constructors of the package build: each value
    records the constructor called and its arguments.  [HTTPHealthz]
    stands for [NewHTTPHealthzChecker] (no transport, no socket),
    [NewHTTPHealthzCheckerWithTransport] (a transport) and
    [NewUnixSocketHealthzChecker] (a socket path); [Composite] is
    [&compositeChecker{name, checkers}]. *)
#[warnings="-register-all"]
Inductive Checker : Type :=
| HTTPHealthz (name URL : string) (transport : option Transport)
              (socketPath : option string) (check : responseChecker)
| ComponentStatus (kubeAddr : string)
| Systemd
| IntraPod (kubeAddr nettestImage : string)
| Composite (name : string) (checkers : list Checker).

(** [config.newHTTPTransport()] is the outcome [newHTTPTransport]. *)
Record ETCDConfig : Type := mkETCDConfig {
  Endpoints : list string;
  newHTTPTransport : error + Transport
}.

Definition KubeAPIServerHealth (kubeAddr : string) : Checker :=
  HTTPHealthz "kube-apiserver" (kubeAddr +:+ "/healthz") None None kubeHealthz.

Definition KubeletHealth (addr : string) : Checker :=
  HTTPHealthz "kubelet" (addr +:+ "/healthz") None None kubeHealthz.

Definition ComponentStatusHealth (kubeAddr : string) : Checker :=
  ComponentStatus kubeAddr.

(** The loop of [EtcdHealth] over the endpoints; [createChecker] returns
    its checker with a nil error. *)
Fixpoint etcdCheckers (name : string) (transport : Transport)
                      (endpoints : list string) (checkers : list Checker)
  : error + list Checker :=
  match endpoints with
  | [] => inr checkers
  | endpoint :: rest =>
      let createChecker (addr : string) : Checker * option error :=
        (HTTPHealthz name (addr +:+ "/health") (Some transport) None etcdChecker,
         None) in
      let '(checker, err) := createChecker endpoint in
      match err with
      | Some e => inl (trace.Wrap e "")
      | None => etcdCheckers name transport rest (checkers ++ [checker])
      end
  end.

Definition EtcdHealth (config : ETCDConfig) : error + Checker :=
  let name := "etcd-healthz" in
  match newHTTPTransport config with
  | inl err => inl (trace.Wrap err "")
  | inr transport =>
      match etcdCheckers name transport (Endpoints config) [] with
      | inl err => inl err
      | inr checkers => inr (Composite name checkers)
      end
  end.

Definition DockerHealth (socketPath : string) : Checker :=
  HTTPHealthz "docker" "http://docker/version" None (Some socketPath)
              dockerChecker.

Definition SystemdHealth : Checker := Systemd.

Definition IntraPodCommunication (kubeAddr nettestImage : string) : Checker :=
  IntraPod kubeAddr nettestImage.

End monitoring.

(** ** Log formatters of the trace package (trace/log.go) *)

Module tracelog.

Definition FileField : string := "file".
Definition FunctionField : string := "func".

(** A frame of the call stack, as [runtime.Caller] reports it. *)
Record Frame : Type := mkFrame {
  frame_file : string;
  frame_line : nat;
  frame_func : string
}.

(** [strings.Contains] *)
Definition Contains (s substr : string) : bool :=
  match String.index 0 substr s with
  | Some _ => true
  | None => false
  end.

(** The stack is the one [findFrame] runs on, innermost frame first:
    frame 0 is [findFrame], frame 1 the [Format] that called it.
    [runtime.Caller(i)] in [findFrame] is frame [i]; it is not ok past
    the end of the stack. *)
Definition Caller (stack : list Frame) (skip : nat) : option Frame :=
  stack !! skip.

(** [for i := 3; i < 10; i++]: [n] iterations are left from [i]. *)
Fixpoint findFrame_loop (stack : list Frame) (i n : nat) : Z :=
  match n with
  | O => (-1)%Z
  | S n' =>
      match Caller stack i with
      | None => (-1)%Z
      | Some fr =>
          if negb (Contains (frame_file fr) "Sirupsen/logrus")
          then Z.of_nat i
          else findFrame_loop stack (S i) n'
      end
  end.

Definition findFrame (stack : list Frame) : Z := findFrame_loop stack 3 7.

(** What [newTrace] keeps of a frame: [String()] and [Func]. *)
Record Trace : Type := mkTrace {
  trace_String : string;
  trace_Func : string
}.

(** A log entry: its data fields and the rest of it. *)
Record Entry : Type := mkEntry {
  Data : gmap string string;
  Message : string
}.

(** [runtime.Caller(frameNo - 1)] in [Format] is frame [frameNo] of the
    stack [findFrame] ran on: [Format] is one frame further out. *)
Definition CallerInFormat (stack : list Frame) (skip : Z) : option Frame :=
  if (skip <? 0)%Z then None else Caller stack (S (Z.to_nat skip)).

(** [TextFormatter.Format]: [newTrace] and the embedded formatter are
    the library's; the result is the entry as it is left and what the
    embedded formatter returns for it. *)
Definition TextFormatter_Format {Out : Type}
    (newTrace : option Frame -> Trace) (inner : Entry -> Out)
    (stack : list Frame) (e : Entry) : Entry * Out :=
  let frameNo := findFrame stack in
  let e :=
    if negb (frameNo =? -1)%Z then
      let t := newTrace (CallerInFormat stack (frameNo - 1)) in
      mkEntry (<[FileField := trace_String t]> (Data e)) (Message e)
    else e in
  (e, inner e).

Definition JSONFormatter_Format {Out : Type}
    (newTrace : option Frame -> Trace) (inner : Entry -> Out)
    (stack : list Frame) (e : Entry) : Entry * Out :=
  let frameNo := findFrame stack in
  let e :=
    if negb (frameNo =? -1)%Z then
      let t := newTrace (CallerInFormat stack (frameNo - 1)) in
      mkEntry (<[FunctionField := trace_Func t]>
                 (<[FileField := trace_String t]> (Data e)))
              (Message e)
    else e in
  (e, inner e).

End tracelog.

(** The frame belongs to logrus. *)
Definition in_logrus (fr : tracelog.Frame) : bool :=
  tracelog.Contains (tracelog.frame_file fr) "Sirupsen/logrus".

(** ** More sample data *)

Module Cases.

Definition answering (status : pb.NodeStatus) : serf.Member -> error + client :=
  fun _ => inr (mkClient (fun _ => inr status)).

Definition status_b : pb.NodeStatus :=
  pb.mkNodeStatus "b" pb.NodeStatus_Degraded
                  (Some (statusFromMember Sample.b)) [Sample.failProbe].

(** Agent "a" of the cluster [a; b] with "b" answering. *)
Definition agent_a_with_b : agent :=
  mkAgent [Sample.AlwaysOkChecker]
          (mkSerfClient (inr [Sample.a; Sample.b]) None) "a" true
          Sample.no_cache (answering status_b) ChanOpen false
          (Some (emptyNodeStatus "a")) [].

(** The channel after the response of "b" has been sent on it. *)
Definition sent_b : chan :=
  send (make_chan 2) (mkStatusResponse (Some status_b) Sample.b None).

(** Agent "a" of a cluster whose members do not include it. *)
Definition agent_a_alone : agent :=
  mkAgent [Sample.AlwaysOkChecker]
          (mkSerfClient (inr [Sample.b]) None) "a" true
          Sample.no_cache (answering status_b) ChanOpen false
          (Some (emptyNodeStatus "a")) [].

(** Agent "a" when the membership provider returns no member. *)
Definition agent_a_empty : agent :=
  mkAgent [Sample.AlwaysOkChecker] (mkSerfClient (inr []) None) "a" true
          Sample.no_cache (answering status_b) ChanOpen false
          (Some (emptyNodeStatus "a")) [].

(** Agent "a" of the cluster [a; b] with a cache that fails to write. *)
Definition agent_a_bad_cache : agent :=
  mkAgent [Sample.AlwaysOkChecker]
          (mkSerfClient (inr [Sample.a; Sample.b]) None) "a" true
          (cache.mkCache None 0 (Some (ErrNew "disk full")))
          (answering status_b) ChanOpen false
          (Some (emptyNodeStatus "a")) [].

(** Binding the second address fails. *)
Definition outside_second_busy : Outside :=
  mkOutside (fun _ => inr (mkSerfClient (inr [Sample.a; Sample.b]) None))
            (fun _ => None)
            (fun addr => if String.eqb addr "10.0.0.1:7575"
                         then Some (ErrNew "address already in use")
                         else None)
            Sample.unreachable.

Definition etcd_config : monitoring.ETCDConfig :=
  monitoring.mkETCDConfig ["https://10.0.0.1:2379"; "https://10.0.0.2:2379"]
                          (inr "tls").

Definition frame (file : string) : tracelog.Frame := tracelog.mkFrame file 1 "f".

(** findFrame, Format, three frames of logrus, then the caller. *)
Definition stack : list tracelog.Frame :=
  [frame "trace/log.go"; frame "trace/log.go";
   frame "github.com/Sirupsen/logrus/entry.go";
   frame "github.com/Sirupsen/logrus/entry.go";
   frame "github.com/Sirupsen/logrus/exported.go";
   frame "agent/agent.go"; frame "runtime/proc.go"].

(** A tick whose collection has overrun its deadline. *)
Definition timed_out : list event :=
  [EvStart; EvTimer; EvLoop true; EvDeadline 0].

(** The state a run reaches (the initial state when it has none). *)
Definition reached (es : list event) (r : agent) : system :=
  match run es (initial r) with
  | Some s => s
  | None => initial r
  end.

End Cases.

(** * Proofs *)

Ltac unfold_M :=
  unfold bind, ret, get, modify, Infof, Lock, Unlock, blocked in *.

(** ** The registry sweep *)

Lemma Check_app (c : health.Checker) (reporter : health.Probes) :
  health.Check c reporter = reporter ++ health.reports c.
Proof.
  unfold health.Check.
  generalize dependent reporter.
  induction (health.reports c) as [|p ps IH]; intros reporter; simpl.
  - now rewrite app_nil_r.
  - rewrite IH. unfold health.Add. now rewrite <- app_assoc.
Qed.

Lemma log_checkers_eq (cs : health.Checkers) (r : agent) :
  log_checkers cs r =
  mkAgent (Checkers r) (serf_client r) (name r) (rpc_serving r)
          (agent_cache r) (dialRPC r) (done r) (mu r) (localStatus r)
          (logged r ++ map (fun c => LogRunningChecker (health.Name c)) cs).
Proof.
  unfold log_checkers.
  generalize dependent r.
  induction cs as [|c cs IH]; intros r; simpl.
  - rewrite app_nil_r. now destruct r.
  - rewrite IH. simpl. now rewrite <- app_assoc.
Qed.

Lemma runCheckers_eq (cs : health.Checkers) (reporter : health.Probes) (r : agent) :
  runCheckers cs reporter r
  = Some (reporter ++ flat_map health.reports cs, log_checkers cs r).
Proof.
  generalize dependent r. generalize dependent reporter.
  induction cs as [|c cs IH]; intros reporter r; simpl.
  - unfold_M. now rewrite app_nil_r.
  - unfold_M. simpl. rewrite IH, Check_app, <- app_assoc. reflexivity.
Qed.

Lemma runChecks_eq (ctx : Context) (r : agent) :
  runChecks ctx r
  = Some (pb.mkNodeStatus (name r)
            (health.Status (flat_map health.reports (Checkers r))) None
            (flat_map health.reports (Checkers r)),
          log_checkers (Checkers r) r).
Proof.
  unfold runChecks. unfold_M. rewrite runCheckers_eq. reflexivity.
Qed.

Lemma collectLocalStatus_eq (ctx : Context) (local : serf.Member) (r : agent) :
  mu r = false ->
  collectLocalStatus ctx local r
  = Some ((Some (swept (name r) (Checkers r) local), None),
          set_localStatus (Some (swept (name r) (Checkers r) local))
                          (log_checkers (Checkers r) r)).
Proof.
  intros Hmu. unfold collectLocalStatus, bind at 1.
  rewrite runChecks_eq. unfold_M.
  rewrite log_checkers_eq. simpl. rewrite Hmu. reflexivity.
Qed.

Lemma recentLocalStatus_eq (r : agent) :
  mu r = false -> recentLocalStatus r = Some (localStatus r, r).
Proof.
  intros Hmu. unfold recentLocalStatus. unfold_M. rewrite Hmu.
  destruct r; simpl in *; subst; reflexivity.
Qed.

(** C9: the probes of a local collection are the probes the checkers
    report, checker after checker in registry order: [runChecks] yields
    them in that order and [collectLocalStatus] returns and publishes a
    status that holds them unchanged. *)
Theorem probes_in_registry_order
  (ctx : Context) (local : serf.Member) (r : agent) :
  mu r = false ->
  exists status0 r0 status r',
    runChecks ctx r = Some (status0, r0) /\
    pb.NodeStatus_Probes status0 = flat_map health.reports (Checkers r) /\
    collectLocalStatus ctx local r = Some ((Some status, None), r') /\
    pb.NodeStatus_Probes status = flat_map health.reports (Checkers r) /\
    localStatus r' = Some status.
Proof.
  intros Hmu.
  eexists _, _, _, _.
  rewrite runChecks_eq, (collectLocalStatus_eq _ _ _ Hmu).
  repeat split.
Qed.

Lemma probes_in_registry_order_witness :
  exists status0 r0 status r',
    runChecks Background Sample.agent_a = Some (status0, r0) /\
    pb.NodeStatus_Probes status0
      = flat_map health.reports (Checkers Sample.agent_a) /\
    collectLocalStatus Background Sample.a Sample.agent_a
      = Some ((Some status, None), r') /\
    pb.NodeStatus_Probes status
      = flat_map health.reports (Checkers Sample.agent_a) /\
    localStatus r' = Some status.
Proof.
  apply (probes_in_registry_order Background Sample.a Sample.agent_a).
  reflexivity.
Defined.

(** ** Cancellation and the registry sweep *)

(** C3, as the claim states it, fails: with the context cancelled before
    the sweep starts, the local collection of agent "a" returns the
    Running probe of its one checker and no Failed probe with cause
    "cancelled" for it. *)
Lemma cancelled_checker_not_reported :
  ~ (forall (ctx : Context) (local : serf.Member) (r : agent)
            (status : pb.NodeStatus) (r' : agent),
        ctx_done ctx = true ->
        collectLocalStatus ctx local r = Some ((Some status, None), r') ->
        forall c, In c (Checkers r) ->
        exists p, In p (pb.NodeStatus_Probes status) /\ cancelled_probe_of c p).
Proof.
  intros claim.
  destruct (claim Sample.cancelled Sample.a Sample.agent_a
                  (swept "a" [Sample.AlwaysOkChecker] Sample.a) _
                  eq_refl eq_refl Sample.AlwaysOkChecker)
    as (p & Hin & _ & Hfailed & _).
  - now left.
  - destruct Hin as [<- | []]. discriminate Hfailed.
Qed.

(** C3, amended: local collection takes the context and never consults
    it.  Whether or not the context is done, it returns what it returns
    under a live context: a status whose probes are exactly the probes
    the checkers of the registry report, none omitted and none added
    for cancellation. *)
Theorem local_collection_ignores_context
  (ctx : Context) (local : serf.Member) (r : agent) :
  mu r = false ->
  collectLocalStatus ctx local r = collectLocalStatus Background local r /\
  exists status r',
    collectLocalStatus ctx local r = Some ((Some status, None), r') /\
    forall p, In p (pb.NodeStatus_Probes status) <->
              exists c, In c (Checkers r) /\ In p (health.reports c).
Proof.
  intros Hmu. rewrite !(collectLocalStatus_eq _ _ _ Hmu). split; [reflexivity|].
  eexists _, _. split; [reflexivity|].
  intros p. simpl. rewrite in_flat_map. reflexivity.
Qed.

Lemma local_collection_ignores_context_witness :
  collectLocalStatus Sample.cancelled Sample.a Sample.agent_a
  = collectLocalStatus Background Sample.a Sample.agent_a /\
  exists status r',
    collectLocalStatus Sample.cancelled Sample.a Sample.agent_a
    = Some ((Some status, None), r') /\
    forall p, In p (pb.NodeStatus_Probes status) <->
              exists c, In c (Checkers Sample.agent_a) /\ In p (health.reports c).
Proof.
  apply (local_collection_ignores_context Sample.cancelled Sample.a Sample.agent_a).
  reflexivity.
Defined.

(** ** Serving the local status *)

(** C6: [LocalStatus] returns the status stored in the slot and leaves
    the agent as it found it: the mutex is taken and released, no
    checker runs, nothing is logged, and neither slot nor cache is
    written. *)
Theorem LocalStatus_serves_slot (r : agent) :
  mu r = false ->
  LocalStatus r = Some (localStatus r, r).
Proof.
  intros Hmu. unfold LocalStatus. now apply recentLocalStatus_eq.
Qed.

Lemma LocalStatus_serves_slot_witness :
  LocalStatus Sample.agent_a
  = Some (localStatus Sample.agent_a, Sample.agent_a).
Proof.
  apply (LocalStatus_serves_slot Sample.agent_a). reflexivity.
Defined.

(** ** Membership failures *)

(** C2: when the enumeration of members fails, [collectStatus] returns
    the error (wrapped) and no system status, and the cycle's task logs
    the error and returns without calling [UpdateStatus]: the cache,
    its count of writes and the status it last stored are unchanged. *)
Theorem members_failure_skips_cache
  (ctx : Context) (now : Z) (sched : schedule) (r : agent) (err : error) :
  serf_Members (serf_client r) = inl err ->
  collectStatus ctx now sched r
  = Some (inl (trace.Wrap err "failed to query serf members"), r) /\
  exists r',
    collectionTask ctx now sched r = Some (tt, r') /\
    agent_cache r' = agent_cache r /\
    cache.writes (agent_cache r') = cache.writes (agent_cache r) /\
    recentStatus r' = Some (cache.RecentStatus (agent_cache r), r') /\
    logged r' = logged r ++
      [LogErrCollecting (trace.Wrap err "failed to query serf members")].
Proof.
  intros Hfail.
  assert (Hc : collectStatus ctx now sched r
               = Some (inl (trace.Wrap err "failed to query serf members"), r)).
  { unfold collectStatus. unfold_M. now rewrite Hfail. }
  split; [exact Hc|].
  eexists. unfold collectionTask, bind at 1. rewrite Hc. unfold_M.
  split; [reflexivity|]. unfold recentStatus. unfold_M. simpl. repeat split.
Qed.

Lemma members_failure_skips_cache_witness :
  collectStatus Background 0 [] Sample.agent_a_no_serf
  = Some (inl (trace.Wrap (ErrNew "serf down") "failed to query serf members"),
          Sample.agent_a_no_serf) /\
  exists r',
    collectionTask Background 0 [] Sample.agent_a_no_serf = Some (tt, r') /\
    agent_cache r' = agent_cache Sample.agent_a_no_serf /\
    cache.writes (agent_cache r') = cache.writes (agent_cache Sample.agent_a_no_serf) /\
    recentStatus r'
    = Some (cache.RecentStatus (agent_cache Sample.agent_a_no_serf), r') /\
    logged r' = logged Sample.agent_a_no_serf ++
      [LogErrCollecting
         (trace.Wrap (ErrNew "serf down") "failed to query serf members")].
Proof.
  apply (members_failure_skips_cache Background 0 [] Sample.agent_a_no_serf
                                     (ErrNew "serf down")).
  reflexivity.
Defined.

(** ** The fan-out *)

Lemma same_setup_refl (r : agent) : same_setup r r.
Proof. repeat split. Qed.

Lemma same_setup_trans (r1 r2 r3 : agent) :
  same_setup r1 r2 -> same_setup r2 r3 -> same_setup r1 r3.
Proof.
  unfold same_setup. intros H12 H23.
  destruct H12 as (?&?&?&?&?&?&?&?), H23 as (?&?&?&?&?&?&?&?).
  repeat split; congruence.
Qed.

Lemma same_setup_add_log (e : logEntry) (r : agent) : same_setup r (add_log e r).
Proof. repeat split. Qed.

Lemma response_of_same_setup (ctx : Context) (r r' : agent) (m : serf.Member) :
  same_setup r r' -> response_of ctx r' m = response_of ctx r m.
Proof.
  intros (HC & _ & Hn & _ & _ & Hd & _). unfold response_of.
  now rewrite HC, Hn, Hd.
Qed.

Lemma after_task_same_setup (r : agent) (m : serf.Member) :
  same_setup r (after_task r m).
Proof.
  unfold after_task. destruct (String.eqb _ _); [|apply same_setup_refl].
  rewrite log_checkers_eq. repeat split.
Qed.

Lemma after_task_slot (r : agent) (m : serf.Member) :
  localStatus r <> None -> localStatus (after_task r m) <> None.
Proof.
  unfold after_task. destruct (String.eqb _ _); [|trivial].
  intros _. discriminate.
Qed.

Lemma task_eq (ctx : Context) (m : serf.Member) (pick : bool) (respc : chan)
              (r : agent) :
  mu r = false ->
  task ctx m pick respc r
  = select_send pick respc (response_of ctx r m) (after_task r m).
Proof.
  intros Hmu. unfold task, response_of, after_task, bind at 1, get.
  destruct (String.eqb (name r) (serf.Name m)).
  - unfold getLocalStatus, bind at 1.
    now rewrite (collectLocalStatus_eq _ _ _ Hmu).
  - unfold getStatusFrom, bind at 1, get. reflexivity.
Qed.

(** A task whose select can proceed returns, with its response sent or,
    when done is closed, possibly dropped. *)
Lemma task_spec (ctx : Context) (m : serf.Member) (pick : bool) (respc : chan)
                (r : agent) :
  mu r = false ->
  can_send respc = true ->
  exists l,
    task ctx m pick respc r
    = Some (mkChan (buf respc ++ l) (cap respc), after_task r m) /\
    l ⊆+ [response_of ctx r m] /\
    (is_closed (done r) = false -> l = [response_of ctx r m]).
Proof.
  intros Hmu Hroom. rewrite (task_eq _ _ _ _ _ Hmu).
  unfold select_send. unfold_M. rewrite Hroom.
  destruct (after_task_same_setup r m) as (_&_&_&_&_&_&Hd&_). rewrite Hd.
  destruct (is_closed (done r)) eqn:Hclosed.
  - destruct pick.
    + exists [response_of ctx r m]. repeat split; auto.
    + exists []. rewrite app_nil_r. destruct respc. repeat split.
      * apply submseteq_nil_l.
      * discriminate.
  - exists [response_of ctx r m]. repeat split; auto.
Qed.

Lemma can_send_room (respc : chan) (n : nat) :
  length (buf respc) + S n <= cap respc -> can_send respc = true.
Proof. intros H. unfold can_send. apply Nat.ltb_lt. lia. Qed.

Lemma map_response_of_same_setup (ctx : Context) (r r' : agent)
                                 (ms : list serf.Member) :
  same_setup r r' ->
  map (response_of ctx r') ms = map (response_of ctx r) ms.
Proof.
  intros Hs. apply map_ext. intros m. now apply response_of_same_setup.
Qed.

(** One task followed by the rest of the fan-out. *)
Lemma fan_out_cons (ctx : Context) (m : serf.Member) (pick : bool)
      (rest : list serf.Member) (respc : chan) (r : agent)
      (k : chan -> M chan) :
  mu r = false ->
  length (buf respc) + S (length rest) <= cap respc ->
  (forall respc1 r1,
      mu r1 = false -> same_setup r r1 ->
      (localStatus r <> None -> localStatus r1 <> None) ->
      length (buf respc1) + length rest <= cap respc1 ->
      exists l r',
        k respc1 r1 = Some (mkChan (buf respc1 ++ l) (cap respc1), r') /\
        same_setup r1 r' /\
        (localStatus r1 <> None -> localStatus r' <> None) /\
        l ⊆+ map (response_of ctx r1) rest /\
        (is_closed (done r1) = false -> l ≡ₚ map (response_of ctx r1) rest)) ->
  exists l r',
    bind (task ctx m pick respc) k r
    = Some (mkChan (buf respc ++ l) (cap respc), r') /\
    same_setup r r' /\
    (localStatus r <> None -> localStatus r' <> None) /\
    l ⊆+ map (response_of ctx r) (m :: rest) /\
    (is_closed (done r) = false -> l ≡ₚ map (response_of ctx r) (m :: rest)).
Proof.
  intros Hmu Hcap Hk.
  destruct (task_spec ctx m pick respc r Hmu (can_send_room _ _ Hcap))
    as (l1 & Htask & Hsub1 & Hopen1).
  pose proof (after_task_same_setup r m) as Hs1.
  assert (Hmu1 : mu (after_task r m) = false).
  { destruct Hs1 as (_&_&_&_&_&_&_&Hm). congruence. }
  assert (Hlen1 : length l1 <= 1).
  { apply submseteq_length in Hsub1. simpl in Hsub1. exact Hsub1. }
  destruct (Hk (mkChan (buf respc ++ l1) (cap respc)) (after_task r m)
               Hmu1 Hs1 (after_task_slot r m))
    as (l2 & r' & Hrest & Hs2 & Hslot2 & Hsub2 & Hopen2).
  { simpl. rewrite length_app. lia. }
  exists (l1 ++ l2), r'. unfold bind. rewrite Htask, Hrest. simpl.
  rewrite (map_response_of_same_setup _ _ _ _ Hs1) in Hsub2, Hopen2.
  rewrite <- app_assoc. split; [reflexivity|].
  split; [eapply same_setup_trans; eassumption|].
  split; [intros Hne; apply Hslot2, after_task_slot, Hne|].
  split.
  - change (response_of ctx r m :: map (response_of ctx r) rest)
      with ([response_of ctx r m] ++ map (response_of ctx r) rest).
    now apply submseteq_app.
  - intros Hopen.
    assert (Hd : done (after_task r m) = done r)
      by (destruct Hs1 as (_&_&_&_&_&_&Hd&_); exact Hd).
    rewrite (Hopen1 Hopen). simpl. constructor.
    apply Hopen2. now rewrite Hd.
Qed.

Lemma runInOrder_spec (ctx : Context) (pending : list serf.Member) :
  forall (respc : chan) (r : agent),
  mu r = false ->
  length (buf respc) + length pending <= cap respc ->
  exists l r',
    runInOrder ctx pending respc r
    = Some (mkChan (buf respc ++ l) (cap respc), r') /\
    same_setup r r' /\
    (localStatus r <> None -> localStatus r' <> None) /\
    l ⊆+ map (response_of ctx r) pending /\
    (is_closed (done r) = false -> l ≡ₚ map (response_of ctx r) pending).
Proof.
  induction pending as [|m rest IH]; intros respc r Hmu Hcap.
  - exists [], r. simpl. unfold ret. rewrite app_nil_r. destruct respc.
    repeat split; auto.
  - simpl. apply fan_out_cons; [assumption|simpl in Hcap; lia|].
    intros respc1 r1 Hmu1 _ _ Hcap1. now apply IH.
Qed.

Lemma runTasks_spec (ctx : Context) (sched : schedule) :
  forall (pending : list serf.Member) (respc : chan) (r : agent),
  mu r = false ->
  length (buf respc) + length pending <= cap respc ->
  exists l r',
    runTasks ctx sched pending respc r
    = Some (mkChan (buf respc ++ l) (cap respc), r') /\
    same_setup r r' /\
    (localStatus r <> None -> localStatus r' <> None) /\
    l ⊆+ map (response_of ctx r) pending /\
    (is_closed (done r) = false -> l ≡ₚ map (response_of ctx r) pending).
Proof.
  induction sched as [|[i pick] sched IH]; intros pending respc r Hmu Hcap.
  - simpl. now apply runInOrder_spec.
  - simpl. destruct (pending !! (i mod length pending)) as [m|] eqn:Hlook.
    + pose proof (delete_Permutation _ _ _ Hlook) as Hperm.
      assert (Hlen : length pending = S (length (delete (i mod length pending) pending))).
      { rewrite Hperm at 1. reflexivity. }
      destruct (fan_out_cons ctx m pick (delete (i mod length pending) pending)
                             respc r
                             (runTasks ctx sched (delete (i mod length pending) pending))
                             Hmu)
        as (l & r' & Hrun & Hs & Hslot & Hsub & Hopen).
      * lia.
      * intros respc1 r1 Hmu1 _ _ Hcap1. now apply IH.
      * exists l, r'. split; [exact Hrun|]. split; [exact Hs|].
        split; [exact Hslot|].
        assert (Hp : map (response_of ctx r) pending
                     ≡ₚ map (response_of ctx r)
                            (m :: delete (i mod length pending) pending))
          by (now apply fmap_Permutation).
        split.
        -- now rewrite Hp.
        -- intros Hc. rewrite Hp. now apply Hopen.
    + assert (Hnil : pending = []).
      { destruct pending as [|m0 rest]; [reflexivity|].
        apply lookup_ge_None in Hlook.
        pose proof (Nat.mod_upper_bound i (length (m0 :: rest))) as Hb.
        simpl in *. lia. }
      subst pending. exists [], r. unfold ret. rewrite app_nil_r.
      destruct respc. repeat split; auto.
Qed.

(** ** Draining the channel and the cluster status *)

Lemma drain_cons (status : statusResponse) (rest : list statusResponse)
      (systemStatus : pb.SystemStatus) (r : agent) :
  exists r1,
    drain (status :: rest) systemStatus r
    = drain rest (append_node systemStatus (node_of_response status)) r1 /\
    same_setup r r1 /\ localStatus r1 = localStatus r.
Proof.
  simpl. unfold_M. unfold node_of_response.
  destruct (resp_err status) as [e|]; simpl;
    eexists; (split; [reflexivity|]); repeat split.
Qed.

Lemma drain_spec (statuses : list statusResponse) :
  forall (systemStatus : pb.SystemStatus) (r : agent),
  exists r',
    drain statuses systemStatus r
    = Some (pb.mkSystemStatus (pb.SystemStatus_Status systemStatus)
              (pb.SystemStatus_Timestamp systemStatus)
              (pb.SystemStatus_Nodes systemStatus
                 ++ map node_of_response statuses), r') /\
    same_setup r r' /\ localStatus r' = localStatus r.
Proof.
  induction statuses as [|status rest IH]; intros systemStatus r.
  - exists r. simpl. unfold ret. rewrite app_nil_r. destruct systemStatus.
    repeat split.
  - destruct (drain_cons status rest systemStatus r) as (r1 & Hcons & Hs1 & Hl1).
    destruct (IH (append_node systemStatus (node_of_response status)) r1)
      as (r' & Hd & Hs & Hl).
    exists r'. rewrite Hcons, Hd. simpl. rewrite <- app_assoc.
    split; [reflexivity|]. split; [|congruence].
    eapply same_setup_trans; eassumption.
Qed.

Lemma collectResponses_spec (ctx : Context) (sched : schedule)
      (members : list serf.Member) (r : agent) :
  mu r = false ->
  exists responses r',
    collectResponses ctx sched members r = Some (responses, r') /\
    same_setup r r' /\
    (localStatus r <> None -> localStatus r' <> None) /\
    responses ⊆+ map (response_of ctx r) members /\
    (is_closed (done r) = false ->
     responses ≡ₚ map (response_of ctx r) members).
Proof.
  intros Hmu.
  destruct (runTasks_spec ctx sched members (make_chan (length members)) r Hmu)
    as (l & r' & Hrun & Hs & Hslot & Hsub & Hopen); [simpl; lia|].
  exists l, r'. unfold collectResponses, bind. rewrite Hrun. simpl.
  unfold ret. split; [reflexivity|]. split; [exact Hs|].
  split; [exact Hslot|]. split; [exact Hsub|exact Hopen].
Qed.

Lemma collectStatus_spec (ctx : Context) (now : Z) (sched : schedule)
      (r : agent) (members : list serf.Member) :
  serf_Members (serf_client r) = inr members ->
  mu r = false ->
  exists responses r1 r',
    collectResponses ctx sched members
      (add_log (LogStartedCollecting (length members) members) r)
    = Some (responses, r1) /\
    collectStatus ctx now sched r
    = Some (inr (setSystemStatus
                   (pb.mkSystemStatus pb.SystemStatus_Unknown now
                      (map node_of_response responses))), r') /\
    same_setup r r' /\
    (localStatus r <> None -> localStatus r' <> None) /\
    responses ⊆+ map (response_of ctx r) members /\
    (is_closed (done r) = false ->
     responses ≡ₚ map (response_of ctx r) members).
Proof.
  intros Hmem Hmu.
  set (r0 := add_log (LogStartedCollecting (length members) members) r).
  destruct (collectResponses_spec ctx sched members r0 Hmu)
    as (responses & r1 & Hresp & Hs1 & Hslot1 & Hsub & Hopen).
  destruct (drain_spec responses
              (pb.mkSystemStatus pb.SystemStatus_Unknown now []) r1)
    as (r' & Hdrain & Hs2 & Hslot2).
  exists responses, r1, r'. split; [exact Hresp|].
  assert (Hs0 : same_setup r r0) by apply same_setup_add_log.
  rewrite (map_response_of_same_setup _ _ _ _ Hs0) in Hsub, Hopen.
  split.
  { unfold collectStatus, bind at 1, get. rewrite Hmem.
    unfold bind at 1, Infof, modify. fold r0.
    unfold bind at 1. rewrite Hresp.
    unfold bind at 1. rewrite Hdrain. reflexivity. }
  split; [eauto using same_setup_trans|].
  split; [intros Hne; rewrite Hslot2; now apply Hslot1|].
  split; [exact Hsub|exact Hopen].
Qed.

(** C1, as the claim states it, fails: once done is closed the task of
    a member whose query fails may take the done case of its select
    and drop its response, and the member is then not accounted for.
    Agent "a" with done closed, the local task sending and the task
    for the unreachable "b" taking the done case, collects a status
    without error whose only node is that of "a". *)
Lemma failed_member_dropped_on_shutdown :
  ~ (forall (ctx : Context) (now : Z) (sched : schedule) (r : agent)
            (members : list serf.Member),
        serf_Members (serf_client r) = inr members ->
        mu r = false ->
        exists systemStatus r',
          collectStatus ctx now sched r = Some (inr systemStatus, r') /\
          forall m, In m members ->
            resp_err (response_of ctx r m) <> None ->
            In (Some (unknownNodeStatus m))
               (pb.SystemStatus_Nodes systemStatus)).
Proof.
  intros claim.
  destruct (claim Background 0%Z [(0, true); (0, false)]
                  Sample.agent_a_closing [Sample.a; Sample.b] eq_refl eq_refl)
    as (systemStatus & r' & Hcoll & Hfailed).
  assert (Hnodes : exists sys r1,
             collectStatus Background 0 [(0, true); (0, false)]
                           Sample.agent_a_closing = Some (inr sys, r1) /\
             map (option_map pb.NodeStatus_Name) (pb.SystemStatus_Nodes sys)
             = [Some "a"])
    by (vm_compute; eexists _, _; split; reflexivity).
  destruct Hnodes as (sys & r1 & Hcoll' & Hnames).
  rewrite Hcoll in Hcoll'. injection Hcoll' as <- <-.
  assert (Hb : In (Some (unknownNodeStatus Sample.b))
                  (pb.SystemStatus_Nodes systemStatus)).
  { apply Hfailed; [right; left; reflexivity|]. vm_compute. discriminate. }
  apply (in_map (option_map pb.NodeStatus_Name)) in Hb.
  rewrite Hnames in Hb. destruct Hb as [Hb | []]. vm_compute in Hb.
  discriminate Hb.
Qed.

(** C1, amended: when the members are enumerated, [collectStatus] returns
    a system status and no error whatever the members answer.  Its nodes
    are the drained responses, one node per response in channel order,
    and each response that carries an error stands in them as the
    Unknown node status of its member, with the member status derived
    from the member; as long as done is not closed, every member whose
    query fails is accounted for in this way. *)
Theorem failed_members_substituted
  (ctx : Context) (now : Z) (sched : schedule) (r : agent)
  (members : list serf.Member) :
  serf_Members (serf_client r) = inr members ->
  mu r = false ->
  exists responses r1 systemStatus r',
    collectResponses ctx sched members
      (add_log (LogStartedCollecting (length members) members) r)
    = Some (responses, r1) /\
    collectStatus ctx now sched r = Some (inr systemStatus, r') /\
    pb.SystemStatus_Nodes systemStatus = map node_of_response responses /\
    (forall resp, In resp responses -> resp_err resp <> None ->
       node_of_response resp = Some (unknownNodeStatus (resp_member resp)) /\
       In (Some (pb.mkNodeStatus (serf.Name (resp_member resp))
                   pb.NodeStatus_Unknown
                   (Some (statusFromMember (resp_member resp))) []))
          (pb.SystemStatus_Nodes systemStatus)) /\
    (is_closed (done r) = false ->
     forall m, In m members -> resp_err (response_of ctx r m) <> None ->
       In (Some (unknownNodeStatus m)) (pb.SystemStatus_Nodes systemStatus)).
Proof.
  intros Hmem Hmu.
  destruct (collectStatus_spec ctx now sched r members Hmem Hmu)
    as (responses & r1 & r' & Hresp & Hcoll & _ & _ & _ & Hopen).
  eexists responses, r1, _, r'.
  split; [exact Hresp|]. split; [exact Hcoll|]. split; [reflexivity|].
  assert (Hsub : forall resp, In resp responses -> resp_err resp <> None ->
            node_of_response resp = Some (unknownNodeStatus (resp_member resp))).
  { intros resp _ Herr. unfold node_of_response.
    destruct (resp_err resp); [reflexivity|contradiction]. }
  split.
  - intros resp Hin Herr. split; [now apply Hsub|].
    simpl. apply in_map_iff. exists resp. split; [now apply Hsub|exact Hin].
  - intros Hnot m Hm Herr. simpl. apply in_map_iff.
    exists (response_of ctx r m).
    assert (Hmember : resp_member (response_of ctx r m) = m).
    { unfold response_of. destruct (String.eqb _ _); [reflexivity|].
      destruct (dialRPC r m) as [|c]; [reflexivity|].
      destruct (client_LocalStatus c ctx); reflexivity. }
    split.
    + rewrite Hsub; [now rewrite Hmember| |exact Herr].
      apply list_elem_of_In. rewrite (Hopen Hnot). apply list_elem_of_In.
      now apply in_map.
    + apply list_elem_of_In. rewrite (Hopen Hnot). apply list_elem_of_In.
      now apply in_map.
Qed.

Lemma failed_members_substituted_witness :
  exists responses r1 systemStatus r',
    collectResponses Background [] [Sample.a; Sample.b]
      (add_log (LogStartedCollecting 2 [Sample.a; Sample.b]) Sample.agent_a)
    = Some (responses, r1) /\
    collectStatus Background 0 [] Sample.agent_a = Some (inr systemStatus, r') /\
    pb.SystemStatus_Nodes systemStatus = map node_of_response responses /\
    (forall resp, In resp responses -> resp_err resp <> None ->
       node_of_response resp = Some (unknownNodeStatus (resp_member resp)) /\
       In (Some (pb.mkNodeStatus (serf.Name (resp_member resp))
                   pb.NodeStatus_Unknown
                   (Some (statusFromMember (resp_member resp))) []))
          (pb.SystemStatus_Nodes systemStatus)) /\
    (is_closed (done Sample.agent_a) = false ->
     forall m, In m [Sample.a; Sample.b] ->
       resp_err (response_of Background Sample.agent_a m) <> None ->
       In (Some (unknownNodeStatus m)) (pb.SystemStatus_Nodes systemStatus)).
Proof.
  apply (failed_members_substituted Background 0 [] Sample.agent_a
                                    [Sample.a; Sample.b]);
    reflexivity.
Defined.

(** C4, as the claim states it, fails: once done is closed a task may
    take the done case of its select and drop its response.  Agent "a"
    with members a and b, both tasks taking that case, collects a
    system status with no node at all and returns it without error. *)
Lemma nodes_fewer_than_members :
  ~ (forall (ctx : Context) (now : Z) (sched : schedule) (r : agent)
            (members : list serf.Member) (systemStatus : pb.SystemStatus)
            (r' : agent),
        serf_Members (serf_client r) = inr members ->
        collectStatus ctx now sched r = Some (inr systemStatus, r') ->
        length (pb.SystemStatus_Nodes systemStatus) = length members).
Proof.
  intros claim.
  specialize (claim Background 0%Z [(0, false); (0, false)]
                    Sample.agent_a_closing [Sample.a; Sample.b]
                    (pb.mkSystemStatus pb.SystemStatus_Unknown 0 []) _
                    eq_refl eq_refl).
  discriminate claim.
Qed.

(** C4, amended: in a collection cycle during which done is not closed
    (the agent is not shutting down), [collectStatus] succeeds with
    exactly one node per member the membership provider returned,
    whether the member's query succeeded or failed. *)
Theorem one_node_per_member
  (ctx : Context) (now : Z) (sched : schedule) (r : agent)
  (members : list serf.Member) :
  serf_Members (serf_client r) = inr members ->
  mu r = false ->
  is_closed (done r) = false ->
  exists systemStatus r',
    collectStatus ctx now sched r = Some (inr systemStatus, r') /\
    length (pb.SystemStatus_Nodes systemStatus) = length members.
Proof.
  intros Hmem Hmu Hnot.
  destruct (collectStatus_spec ctx now sched r members Hmem Hmu)
    as (responses & r1 & r' & _ & Hcoll & _ & _ & _ & Hopen).
  eexists _, r'. split; [exact Hcoll|].
  simpl. rewrite length_map, (Hopen Hnot), length_map. reflexivity.
Qed.

Lemma one_node_per_member_witness :
  exists systemStatus r',
    collectStatus Background 0 [(1, true)] Sample.agent_a
    = Some (inr systemStatus, r') /\
    length (pb.SystemStatus_Nodes systemStatus) = length [Sample.a; Sample.b].
Proof.
  apply (one_node_per_member Background 0 [(1, true)] Sample.agent_a
                             [Sample.a; Sample.b]);
    reflexivity.
Defined.

(** ** Contexts *)

Lemma finish_ctx_done (why : ctxErr) (c : Context) :
  ctx_done (finish_ctx why c) = true.
Proof.
  unfold finish_ctx, ctx_done. destruct (ctx_Err c) eqn:E; simpl; [|reflexivity].
  now rewrite E.
Qed.

Lemma finish_ctx_id (why : ctxErr) (c : Context) :
  ctx_done c = true -> finish_ctx why c = c.
Proof.
  unfold finish_ctx, ctx_done. destruct (ctx_Err c); [reflexivity|discriminate].
Qed.

Lemma length_finish_nth (why : ctxErr) (n : nat) (cs : list Context) :
  length (finish_nth why n cs) = length cs.
Proof.
  unfold finish_nth. destruct (cs !! n); [apply length_insert|reflexivity].
Qed.

(** A context that is live after a cancellation was live before it and
    is not the cancelled one. *)
Lemma finish_nth_live (why : ctxErr) (n m : nat) (cs : list Context) (c : Context) :
  finish_nth why n cs !! m = Some c -> ctx_done c = false ->
  cs !! m = Some c /\ m <> n.
Proof.
  unfold finish_nth. destruct (cs !! n) as [c0|] eqn:Hn.
  - intros Hm Hlive. destruct (decide (n = m)) as [->|Hne].
    + rewrite list_lookup_insert_eq in Hm by (eapply lookup_lt_Some; eassumption).
      injection Hm as <-. rewrite finish_ctx_done in Hlive. discriminate.
    + rewrite list_lookup_insert_ne in Hm by assumption. split; [exact Hm|auto].
  - intros Hm Hlive. split; [exact Hm|]. intros ->. congruence.
Qed.

Lemma finish_nth_done (why : ctxErr) (n : nat) (cs : list Context) (c : Context) :
  cs !! n = Some c ->
  exists c', finish_nth why n cs !! n = Some c' /\ ctx_done c' = true.
Proof.
  intros Hn. unfold finish_nth. rewrite Hn. exists (finish_ctx why c).
  split; [|apply finish_ctx_done].
  apply list_lookup_insert_eq. eapply lookup_lt_Some; eassumption.
Qed.



Lemma NoDup_remove_id (n : nat) (l : list nat) : NoDup l -> NoDup (remove_id n l).
Proof. intros H. unfold remove_id. apply NoDup_ListNoDup, List.NoDup_filter, NoDup_ListNoDup, H. Qed.

Lemma In_remove_id (n m : nat) (l : list nat) : In m (remove_id n l) -> In m l.
Proof. unfold remove_id. intros H. apply List.filter_In in H. tauto. Qed.

(** ** The loop: what every run preserves *)

Lemma ctx_inv_mono (s s' : system) :
  ctx_inv s ->
  pc s' = pc s ->
  length (contexts s') = length (contexts s) ->
  (forall n c, contexts s' !! n = Some c -> ctx_done c = false ->
               contexts s !! n = Some c) ->
  NoDup (inflight s') ->
  (forall n, In n (inflight s') -> In n (inflight s)) ->
  ctx_inv s'.
Proof.
  intros (Hlive & Hwait & Hnd & Hlt) Hpc Hlen Hctx Hnd' Hsub.
  unfold ctx_inv. rewrite Hpc, Hlen. repeat split; auto.
  intros n c Hn Hc. eapply Hlive; eauto.
Qed.

Lemma ctx_inv_idle (s s' : system) :
  ctx_inv s ->
  (forall n, pc s' <> AtWait n) ->
  length (contexts s') = length (contexts s) ->
  (forall n c, contexts s' !! n = Some c -> ctx_done c = true) ->
  inflight s' = inflight s ->
  ctx_inv s'.
Proof.
  intros (Hlive & Hwait & Hnd & Hlt) Hpc Hlen Hctx Hin.
  unfold ctx_inv. rewrite Hlen, Hin. repeat split; auto.
  - intros n c Hn Hc. rewrite (Hctx _ _ Hn) in Hc. discriminate.
  - intros n Hn. now apply Hpc in Hn.
Qed.

Lemma ctx_inv_no_live (s : system) :
  ctx_inv s -> (forall n, pc s <> AtWait n) ->
  forall n c, contexts s !! n = Some c -> ctx_done c = true.
Proof.
  intros (Hlive & _) Hpc n c Hn. destruct (ctx_done c) eqn:Hc; [reflexivity|].
  exfalso. exact (Hpc n (Hlive n c Hn Hc)).
Qed.

Lemma ctx_inv_tick (s : system) :
  ctx_inv s -> pc s = AtTick ->
  ctx_inv (mkSystem (the_agent s) (AtWait (length (contexts s))) false
                    (contexts s ++ [mkContext None])
                    (length (contexts s) :: inflight s)).
Proof.
  intros Hinv Hpc.
  assert (Hdone : forall n c, contexts s !! n = Some c -> ctx_done c = true).
  { apply ctx_inv_no_live; [exact Hinv|]. intros n. rewrite Hpc. discriminate. }
  destruct Hinv as (Hlive & Hwait & Hnd & Hlt).
  unfold ctx_inv. simpl. rewrite length_app. simpl. repeat split.
  - intros n c Hn Hc. destruct (decide (n < length (contexts s))) as [Hl|Hl].
    + rewrite lookup_app_l in Hn by assumption.
      rewrite (Hdone _ _ Hn) in Hc. discriminate.
    + assert (Hb : n < length (contexts s ++ [mkContext None]))
        by (eapply lookup_lt_Some; eassumption).
      rewrite length_app in Hb. simpl in Hb. f_equal. lia.
  - intros n [= <-]. lia.
  - apply NoDup_cons. split; [|exact Hnd].
    intros Hin. apply list_elem_of_In, Hlt in Hin. lia.
  - intros n [<- | Hin]; [lia|]. apply Hlt in Hin. lia.
Qed.

Lemma loop_step_ctx_inv (pick : bool) (s s' : system) :
  ctx_inv s -> loop_step pick s = Some s' -> ctx_inv s'.
Proof.
  intros Hinv Hstep. unfold loop_step in Hstep.
  destruct (pc s) as [| |n|] eqn:Hpc; try discriminate.
  - assert (Hleave : ctx_inv (mkSystem (the_agent s) Exited false
                                       (contexts s) (inflight s))).
    { eapply ctx_inv_idle; [exact Hinv|simpl; discriminate|reflexivity| |reflexivity].
      simpl. apply ctx_inv_no_live; [exact Hinv|]. intros m. rewrite Hpc. discriminate. }
    pose proof (ctx_inv_tick s Hinv Hpc) as Htick.
    destruct (ticked s), (is_closed (done (the_agent s))), pick;
      inversion Hstep; subst; assumption.
  - destruct (contexts s !! n) as [c|] eqn:Hn; [|discriminate].
    assert (Hothers : forall m c', contexts s !! m = Some c' ->
                                   ctx_done c' = false -> m = n).
    { intros m c' Hm Hc'. destruct Hinv as (Hlive & _).
      specialize (Hlive m c' Hm Hc'). congruence. }
    assert (Hleave : ctx_inv (mkSystem (the_agent s) Exited false
                                (finish_nth Canceled n (contexts s)) (inflight s))).
    { eapply ctx_inv_idle; [exact Hinv|simpl; discriminate| | |reflexivity].
      - simpl. apply length_finish_nth.
      - simpl. intros m c' Hm. destruct (ctx_done c') eqn:Hc'; [reflexivity|].
        destruct (finish_nth_live _ _ _ _ _ Hm Hc') as [Hm' Hne].
        exfalso. apply Hne. eapply Hothers; eassumption. }
    assert (Hnext : ctx_done c = true -> forall r,
               ctx_inv (mkSystem r AtTick false (contexts s) (inflight s))).
    { intros Hc r. eapply ctx_inv_idle;
        [exact Hinv|simpl; discriminate|reflexivity| |reflexivity].
      simpl. intros m c' Hm. destruct (ctx_done c') eqn:Hc'; [reflexivity|].
      assert (m = n) by (eapply Hothers; eassumption). subst m. congruence. }
    destruct (ctx_done c) eqn:Hc, (is_closed (done (the_agent s))), pick;
      inversion Hstep; subst; auto.
Qed.

Lemma step_ctx_inv (e : event) (s s' : system) :
  ctx_inv s -> step e s = Some s' -> ctx_inv s'.
Proof.
  intros Hinv Hstep. destruct e as [| |pick|n|n now sched| |c|]; unfold step in Hstep.
  - destruct (pc s) eqn:Hpc; try discriminate. inversion Hstep; subst.
    eapply ctx_inv_idle; [exact Hinv|simpl; discriminate|reflexivity| |reflexivity].
    simpl. apply ctx_inv_no_live; [exact Hinv|]. intros m. rewrite Hpc. discriminate.
  - destruct (pc s) eqn:Hpc; try discriminate. inversion Hstep; subst.
    eapply ctx_inv_mono; [exact Hinv|simpl; congruence|reflexivity|auto| |auto];
      apply Hinv.
  - eapply loop_step_ctx_inv; eassumption.
  - destruct (contexts s !! n) as [c|]; [|discriminate].
    destruct (ctx_done c); [discriminate|]. inversion Hstep; subst.
    eapply ctx_inv_mono; [exact Hinv|reflexivity| | | |auto]; simpl.
    + apply length_finish_nth.
    + intros m c' Hm Hc'. eapply finish_nth_live; eassumption.
    + apply Hinv.
  - destruct (contexts s !! n) as [c|]; [|discriminate].
    destruct (bool_decide _); [|discriminate].
    destruct (collectionTask c now sched (the_agent s)) as [[[] r]|]; [|discriminate].
    inversion Hstep; subst.
    eapply ctx_inv_mono; [exact Hinv|reflexivity| | | |]; simpl.
    + apply length_finish_nth.
    + intros m c' Hm Hc'. eapply finish_nth_live; eassumption.
    + apply NoDup_remove_id, Hinv.
    + intros m. apply In_remove_id.
  - destruct (Close (the_agent s)) as [[[res|msg] r]|]; try discriminate.
    inversion Hstep; subst.
    eapply ctx_inv_mono; [exact Hinv|reflexivity|reflexivity|auto| |auto]; apply Hinv.
  - destruct (AddChecker c (the_agent s)) as [[[] r]|]; [|discriminate].
    inversion Hstep; subst.
    eapply ctx_inv_mono; [exact Hinv|reflexivity|reflexivity|auto| |auto]; apply Hinv.
  - destruct (LocalStatus (the_agent s)) as [[v r]|]; [|discriminate].
    inversion Hstep; subst.
    eapply ctx_inv_mono; [exact Hinv|reflexivity|reflexivity|auto| |auto]; apply Hinv.
Qed.

Lemma ctx_inv_initial (r : agent) : ctx_inv (initial r).
Proof.
  unfold ctx_inv, initial. simpl. repeat split.
  - intros n c Hn. rewrite lookup_nil in Hn. discriminate.
  - intros n Hn. discriminate.
  - apply NoDup_nil_2.
  - intros n [].
Qed.

Lemma run_ctx_inv (es : list event) :
  forall (s s' : system), ctx_inv s -> run es s = Some s' -> ctx_inv s'.
Proof.
  induction es as [|e es IH]; intros s s' Hinv Hrun; simpl in Hrun.
  - now inversion Hrun; subst.
  - destruct (step e s) as [s1|] eqn:Hstep; [|discriminate].
    eapply IH; [|exact Hrun]. eapply step_ctx_inv; eassumption.
Qed.

(** ** Collections in flight *)

Lemma at_most_one (l : list nat) :
  NoDup l -> (forall x y, In x l -> In y l -> x = y) -> length l <= 1.
Proof.
  intros Hnd Heq. destruct l as [|a [|b l]]; simpl; try lia.
  exfalso. assert (a = b) by (apply Heq; simpl; auto). subst b.
  apply NoDup_cons in Hnd. destruct Hnd as [Hnot _]. apply Hnot. now left.
Qed.

Lemma live_inflight_In (s : system) (n : nat) :
  In n (live_inflight s) <->
  In n (inflight s) /\ exists c, contexts s !! n = Some c /\ ctx_done c = false.
Proof.
  unfold live_inflight. rewrite List.filter_In. split.
  - intros [Hin Hlive]. split; [exact Hin|].
    destruct (contexts s !! n) as [c|]; [|discriminate].
    exists c. split; [reflexivity|]. now destruct (ctx_done c).
  - intros [Hin (c & Hn & Hc)]. split; [exact Hin|]. now rewrite Hn, Hc.
Qed.

(** C5, as the claim states it, fails: the loop waits for the context
    of a collection, not for the collection.  After a tick whose
    collection overruns its deadline the loop goes on to the next tick
    and starts collection 1 while collection 0 is still in flight. *)
Lemma two_collections_in_flight :
  ~ (forall (r : agent) (es : list event) (s : system),
        run es (initial r) = Some s -> length (inflight s) <= 1).
Proof.
  intros claim.
  specialize (claim Sample.agent_a Sample.overrun _ eq_refl).
  simpl in claim. lia.
Qed.

(** C5, amended: at every instant at most one collection in flight has a
    context that is not done, and it is the collection the loop is
    waiting on; the loop starts the next collection only after the
    context of the previous one is done.  A collection that overruns its
    deadline has its context done (deadline exceeded) but is not
    stopped: every other collection still in flight runs under a context
    that is done. *)
Theorem one_live_collection (r : agent) (es : list event) (s : system) :
  run es (initial r) = Some s ->
  length (live_inflight s) <= 1 /\
  (forall n, In n (live_inflight s) -> pc s = AtWait n) /\
  (forall n, In n (inflight s) -> pc s <> AtWait n ->
             exists c, contexts s !! n = Some c /\ ctx_done c = true).
Proof.
  intros Hrun.
  pose proof (run_ctx_inv es _ _ (ctx_inv_initial r) Hrun)
    as (Hlive & Hwait & Hnd & Hlt).
  assert (Hpc : forall n, In n (live_inflight s) -> pc s = AtWait n).
  { intros n Hin. apply live_inflight_In in Hin.
    destruct Hin as [_ (c & Hn & Hc)]. eauto. }
  split; [|split].
  - apply at_most_one.
    + unfold live_inflight. apply NoDup_ListNoDup, List.NoDup_filter, NoDup_ListNoDup, Hnd.
    + intros x y Hx Hy. apply Hpc in Hx, Hy. congruence.
  - exact Hpc.
  - intros n Hin Hnot. destruct (lookup_lt_is_Some_2 (contexts s) n (Hlt n Hin))
      as [c Hn].
    exists c. split; [exact Hn|]. destruct (ctx_done c) eqn:Hc; [reflexivity|].
    exfalso. eauto.
Qed.

Lemma one_live_collection_witness :
  exists s,
    run Sample.collecting (initial Sample.agent_a) = Some s /\
    length (live_inflight s) <= 1 /\
    (forall n, In n (live_inflight s) -> pc s = AtWait n) /\
    (forall n, In n (inflight s) -> pc s <> AtWait n ->
               exists c, contexts s !! n = Some c /\ ctx_done c = true).
Proof.
  eexists. split; [reflexivity|].
  apply (one_live_collection Sample.agent_a Sample.collecting). reflexivity.
Defined.

(** ** The local-status slot over a run *)

Lemma collectionTask_spec (ctx : Context) (now : Z) (sched : schedule) (r : agent) :
  mu r = false ->
  exists r',
    collectionTask ctx now sched r = Some (tt, r') /\
    mu r' = false /\
    (localStatus r <> None -> localStatus r' <> None) /\
    done r' = done r.
Proof.
  intros Hmu. unfold collectionTask, bind at 1.
  destruct (serf_Members (serf_client r)) as [err|members] eqn:Hmem.
  - unfold collectStatus. unfold_M. rewrite Hmem. simpl.
    eexists. split; [reflexivity|]. simpl. auto.
  - destruct (collectStatus_spec ctx now sched r members Hmem Hmu)
      as (responses & r1 & r' & _ & Hcoll & Hs & Hslot & _).
    rewrite Hcoll. destruct Hs as (_&_&_&_&_&_&Hd&Hm).
    unfold_M. unfold cache.UpdateStatus.
    destruct (cache.failing (agent_cache r')); simpl;
      (eexists; split; [reflexivity|]; simpl; repeat split; try congruence; auto).
Qed.

Lemma Close_open (r : agent) :
  done r = ChanOpen ->
  Close r
  = Some (Returns (match serf_Close (serf_client r) with
                   | Some err => Some (trace.Wrap err "")
                   | None => None
                   end),
          set_done ChanClosed (set_rpc_serving false r)).
Proof.
  intros Hopen. unfold Close. unfold_M. simpl. rewrite Hopen.
  destruct (serf_Close (serf_client r)); reflexivity.
Qed.

Lemma Close_slot (r r' : agent) (res : outcome (option error)) :
  Close r = Some (res, r') ->
  mu r' = mu r /\ localStatus r' = localStatus r.
Proof.
  unfold Close. unfold_M. simpl.
  destruct (done r); [| |]; try (intros [= <- <-]; simpl; auto).
  destruct (serf_Close (serf_client r)); intros [= <- <-]; simpl; auto.
Qed.

Lemma loop_step_slot (pick : bool) (s s' : system) :
  loop_step pick s = Some s' ->
  mu (the_agent s') = mu (the_agent s) /\
  localStatus (the_agent s') = localStatus (the_agent s) /\
  done (the_agent s') = done (the_agent s).
Proof.
  unfold loop_step. destruct (pc s); try discriminate.
  - destruct (ticked s), (is_closed _), pick; intros [= <-]; simpl; auto.
  - destruct (contexts s !! n) as [c|]; [|discriminate].
    destruct (ctx_done c), (is_closed _), pick; intros [= <-]; simpl; auto;
      destruct (ctx_Err c) as [[]|]; simpl; auto.
Qed.

Lemma step_slot_inv (e : event) (s s' : system) :
  slot_inv s -> step e s = Some s' -> slot_inv s'.
Proof.
  intros [Hmu Hslot] Hstep. unfold slot_inv.
  destruct e as [| |pick|n|n now sched| |c|]; unfold step in Hstep.
  - destruct (pc s); try discriminate. inversion Hstep; subst. simpl. auto.
  - destruct (pc s); try discriminate. inversion Hstep; subst. simpl. auto.
  - destruct (loop_step_slot _ _ _ Hstep) as (-> & -> & _). auto.
  - destruct (contexts s !! n) as [c|]; [|discriminate].
    destruct (ctx_done c); [discriminate|]. inversion Hstep; subst. simpl. auto.
  - destruct (contexts s !! n) as [c|]; [|discriminate].
    destruct (bool_decide _); [|discriminate].
    destruct (collectionTask_spec c now sched (the_agent s) Hmu)
      as (r' & Htask & Hmu' & Hslot' & _).
    rewrite Htask in Hstep. inversion Hstep; subst. simpl. auto.
  - destruct (Close (the_agent s)) as [[[res|msg] r]|] eqn:Hclose; try discriminate.
    inversion Hstep; subst. simpl.
    destruct (Close_slot _ _ _ Hclose) as [-> ->]. auto.
  - unfold AddChecker, modify in Hstep. inversion Hstep; subst. simpl. auto.
  - unfold LocalStatus in Hstep. rewrite (recentLocalStatus_eq _ Hmu) in Hstep.
    inversion Hstep; subst. simpl. auto.
Qed.

Lemma run_slot_inv (es : list event) :
  forall (s s' : system), slot_inv s -> run es s = Some s' -> slot_inv s'.
Proof.
  induction es as [|e es IH]; intros s s' Hinv Hrun; simpl in Hrun.
  - now inversion Hrun; subst.
  - destruct (step e s) as [s1|] eqn:Hstep; [|discriminate].
    eapply IH; [|exact Hrun]. eapply step_slot_inv; eassumption.
Qed.

Lemma New_agent (config : Config) (o : Outside) (r : agent) :
  New config o = inr r ->
  mu r = false /\
  localStatus r = Some (emptyNodeStatus (cfg_Name config)) /\
  name r = cfg_Name config /\ done r = ChanNil /\ Checkers r = [].
Proof.
  unfold New. destruct (ClientFromConfig o _); [discriminate|].
  destruct (UpdateTags o _); [discriminate|].
  destruct (listenAll o _); [discriminate|].
  intros [= <-]. simpl. auto.
Qed.

(** C10: in the agent [New] returns, and in every state the agent
    reaches from there (start, ticks, collections that succeed or fail,
    timeouts, added checkers, served calls, close), [LocalStatus] returns
    a status that is not nil; right after [New] it is the placeholder:
    the configured name, status Unknown, a member status with that name
    and nothing else, and no probes. *)
Theorem LocalStatus_never_nil (config : Config) (o : Outside) (r : agent) :
  New config o = inr r ->
  LocalStatus r
  = Some (Some (pb.mkNodeStatus (cfg_Name config) pb.NodeStatus_Unknown
                  (Some (pb.mkMemberStatus (cfg_Name config) ""
                           pb.MemberStatus_None ∅)) []), r) /\
  forall (es : list event) (s : system),
    run es (initial r) = Some s ->
    exists status, LocalStatus (the_agent s) = Some (Some status, the_agent s).
Proof.
  intros Hnew. destruct (New_agent _ _ _ Hnew) as (Hmu & Hslot & _).
  split.
  - unfold LocalStatus. rewrite (recentLocalStatus_eq _ Hmu), Hslot. reflexivity.
  - intros es s Hrun.
    assert (Hinit : slot_inv (initial r)).
    { split; simpl; [exact Hmu|]. rewrite Hslot. discriminate. }
    destruct (run_slot_inv es _ _ Hinit Hrun) as [Hmu' Hslot'].
    destruct (localStatus (the_agent s)) as [status|] eqn:Hs; [|contradiction].
    exists status. rewrite <- Hs. unfold LocalStatus. now apply recentLocalStatus_eq.
Qed.

Lemma LocalStatus_never_nil_witness :
  exists r s,
    New Sample.config_a Sample.outside_ok = inr r /\
    run Sample.overrun (initial r) = Some s /\
    LocalStatus r
    = Some (Some (pb.mkNodeStatus "a" pb.NodeStatus_Unknown
                    (Some (pb.mkMemberStatus "a" "" pb.MemberStatus_None ∅)) []),
            r) /\
    exists status, LocalStatus (the_agent s) = Some (Some status, the_agent s).
Proof.
  eexists _, _. split; [reflexivity|]. split; [reflexivity|].
  destruct (LocalStatus_never_nil Sample.config_a Sample.outside_ok _ eq_refl)
    as [Hfirst Hlater].
  split; [exact Hfirst|].
  apply (Hlater Sample.overrun). reflexivity.
Defined.

(** ** Ticks and contexts *)

Lemma loop_step_budget (pick : bool) (s s' : system) :
  loop_step pick s = Some s' -> tick_budget s' <= tick_budget s.
Proof.
  unfold loop_step, tick_budget. destruct (pc s); try discriminate.
  - destruct (ticked s), (is_closed _), pick; intros [= <-]; simpl;
      rewrite ?length_app; simpl; lia.
  - destruct (contexts s !! n) as [c|]; [|discriminate].
    destruct (ctx_done c), (is_closed _), pick; intros [= <-]; simpl;
      rewrite ?length_finish_nth; destruct (ticked s); lia.
Qed.

Lemma step_budget (e : event) (s s' : system) :
  step e s = Some s' ->
  tick_budget s' <= tick_budget s + (if is_timer e then 1 else 0).
Proof.
  unfold tick_budget.
  destruct e as [| |pick|n|n now sched| |c|]; unfold step; simpl.
  - destruct (pc s); try discriminate. intros [= <-]. simpl.
    destruct (ticked s); lia.
  - destruct (pc s); try discriminate. intros [= <-]. simpl.
    destruct (ticked s); lia.
  - intros H. apply loop_step_budget in H. unfold tick_budget in H. lia.
  - destruct (contexts s !! n) as [c|]; [|discriminate].
    destruct (ctx_done c); [discriminate|]. intros [= <-]. simpl.
    rewrite length_finish_nth. lia.
  - destruct (contexts s !! n) as [c|]; [|discriminate].
    destruct (bool_decide _); [|discriminate].
    destruct (collectionTask c now sched (the_agent s)) as [[[] r]|]; [|discriminate].
    intros [= <-]. simpl. rewrite length_finish_nth. lia.
  - destruct (Close (the_agent s)) as [[[res|msg] r]|]; try discriminate.
    intros [= <-]. simpl. lia.
  - unfold AddChecker, modify. intros [= <-]. simpl. lia.
  - destruct (LocalStatus (the_agent s)) as [[v r]|]; [|discriminate].
    intros [= <-]. simpl. lia.
Qed.

Lemma run_budget (es : list event) :
  forall s s', run es s = Some s' -> tick_budget s' <= tick_budget s + timers es.
Proof.
  unfold timers.
  induction es as [|e es IH]; intros s s' Hrun; simpl in Hrun.
  - inversion Hrun; subst. simpl. lia.
  - destruct (step e s) as [s1|] eqn:Hstep; [|discriminate].
    apply step_budget in Hstep. apply IH in Hrun. simpl.
    destruct (is_timer e); simpl in *; lia.
Qed.

(** ** Shutdown *)

Lemma run_app (es es' : list event) :
  forall s, run (es ++ es') s
            = match run es s with Some s1 => run es' s1 | None => None end.
Proof.
  induction es as [|e es IH]; intros s; simpl; [reflexivity|].
  destruct (step e s); [apply IH|reflexivity].
Qed.










(** ** Serving the slot *)

Lemma getStatusFrom_state (ctx : Context) (m : serf.Member) (pick : bool)
                          (r : agent) :
  exists c, getStatusFrom ctx m pick (make_chan 1) r = Some (c, r).
Proof.
  unfold getStatusFrom, select_send. unfold_M. simpl.
  destruct (is_closed (done r)); [destruct pick|]; eexists; reflexivity.
Qed.

Lemma sweepLocal_eq (ctx : Context) (local : serf.Member) (r : agent) :
  sweepLocal ctx local r
  = Some (swept (name r) (Checkers r) local, log_checkers (Checkers r) r).
Proof.
  unfold sweepLocal, bind. rewrite runChecks_eq. reflexivity.
Qed.

Lemma publishLocal_eq (status : pb.NodeStatus) (r : agent) :
  mu r = false ->
  publishLocal status r = Some (tt, set_localStatus (Some status) r).
Proof.
  intros Hmu. unfold publishLocal. unfold_M. rewrite Hmu. simpl.
  destruct r; simpl in *; subst; reflexivity.
Qed.

(** The two parts make up [collectLocalStatus]. *)
Lemma collectLocalStatus_split (ctx : Context) (local : serf.Member) (r : agent) :
  collectLocalStatus ctx local r
  = (let* status := sweepLocal ctx local in
     let* _ := publishLocal status in
     ret (Some status, None)) r.
Proof.
  unfold collectLocalStatus, sweepLocal, publishLocal. unfold_M.
  rewrite runChecks_eq. destruct (mu (log_checkers (Checkers r) r)); reflexivity.
Qed.

Lemma last_cons {A} (x d : A) (l : list A) :
  List.last (x :: l) d = List.last l x.
Proof.
  revert x d. induction l as [|y l IH]; intros x d; [reflexivity|].
  change (List.last (x :: y :: l) d) with (List.last (y :: l) d).
  now rewrite (IH y d), (IH y x).
Qed.

Lemma serves_other (o : slotOp) (pre : list slotOp) :
  is_serve o = false -> serves (o :: pre) = serves pre.
Proof. intros H. unfold serves. simpl. now rewrite H. Qed.

Lemma serves_serve (pre : list slotOp) :
  serves (SlServe :: pre) = S (serves pre).
Proof. reflexivity. Qed.

Lemma serveSlot_spec (ops : list slotOp) :
  forall (r : agent) (pend : sweptStatuses) (sweeps slot : nat),
  mu r = false ->
  exists out,
    serveSlot ops r pend sweeps slot = Some out /\
    forall pre post, ops = pre ++ SlServe :: post ->
      snd <$> (out !! serves pre)
      = Some (List.last (publishedSlot pre r pend sweeps) (localStatus r)).
Proof.
  induction ops as [|o ops IH]; intros r pend sweeps slot Hmu.
  - exists []. split; [reflexivity|]. intros [|o pre] post H; discriminate H.
  - destruct o as [cs|id ctx local|id|ctx m pick|].
    + destruct (IH (set_Checkers cs r) pend sweeps slot Hmu) as (out & Hs & Hpos).
      exists out. split; [exact Hs|].
      intros [|o pre] post H; [discriminate H|].
      injection H as <- Hrest. rewrite serves_other by reflexivity.
      apply (Hpos pre post Hrest).
    + destruct (IH (log_checkers (Checkers r) r)
                   ((id, (S sweeps, swept (name r) (Checkers r) local)) :: pend)
                   (S sweeps) slot) as (out & Hs & Hpos).
      { rewrite log_checkers_eq. exact Hmu. }
      exists out. split; [simpl; rewrite sweepLocal_eq; exact Hs|].
      intros [|o pre] post H; [discriminate H|].
      injection H as <- Hrest. rewrite serves_other by reflexivity.
      simpl publishedSlot. rewrite sweepLocal_eq.
      rewrite (Hpos pre post Hrest), log_checkers_eq. reflexivity.
    + destruct (find_swept id pend) as [[n status]|] eqn:Hfind.
      * destruct (IH (set_localStatus (Some status) r) (drop_swept id pend)
                     sweeps n Hmu) as (out & Hs & Hpos).
        exists out.
        split; [simpl; rewrite Hfind, (publishLocal_eq _ _ Hmu); exact Hs|].
        intros [|o pre] post H; [discriminate H|].
        injection H as <- Hrest. rewrite serves_other by reflexivity.
        simpl publishedSlot. rewrite Hfind, (publishLocal_eq _ _ Hmu).
        rewrite (Hpos pre post Hrest), last_cons. reflexivity.
      * destruct (IH r pend sweeps slot Hmu) as (out & Hs & Hpos).
        exists out. split; [simpl; rewrite Hfind; exact Hs|].
        intros [|o pre] post H; [discriminate H|].
        injection H as <- Hrest. rewrite serves_other by reflexivity.
        simpl publishedSlot. rewrite Hfind.
        apply (Hpos pre post Hrest).
    + destruct (getStatusFrom_state ctx m pick r) as [c Hc].
      destruct (IH r pend sweeps slot Hmu) as (out & Hs & Hpos).
      exists out. split; [simpl; rewrite Hc; exact Hs|].
      intros [|o pre] post H; [discriminate H|].
      injection H as <- Hrest. rewrite serves_other by reflexivity.
      simpl publishedSlot. rewrite Hc. apply (Hpos pre post Hrest).
    + destruct (IH r pend sweeps slot Hmu) as (out & Hs & Hpos).
      exists ((slot, localStatus r) :: out).
      split.
      { simpl. unfold LocalStatus. rewrite (recentLocalStatus_eq _ Hmu), Hs.
        reflexivity. }
      intros [|o pre] post H.
      * reflexivity.
      * injection H as <- Hrest. rewrite serves_serve.
        simpl publishedSlot. unfold LocalStatus.
        rewrite (recentLocalStatus_eq _ Hmu).
        apply (Hpos pre post Hrest).
Qed.

(** C7, as the claim states it, fails: the sweep of a local collection
    runs outside the mutex and collections overlap, so a status swept
    earlier can be published after one swept later.  Collection 0
    sweeps while the checker fails, collection 1 sweeps after it has
    recovered and publishes first; the first call is served the status
    of sweep 2 (Running) and, after collection 0 has published, the
    second call is served the status of sweep 1 (Degraded). *)
Lemma older_sweep_served_later :
  ~ (forall (r : agent) (ops : list slotOp)
            (out : list (nat * option pb.NodeStatus)),
        mu r = false ->
        serveSlot ops r [] 0 0 = Some out ->
        nondecreasing (map fst out) = true) /\
  (exists out,
      serveSlot Sample.overtaken Sample.agent_a [] 0 0 = Some out /\
      map fst out = [2; 1] /\
      map (fun e => option_map pb.NodeStatus_Status (snd e)) out
      = [Some pb.NodeStatus_Running; Some pb.NodeStatus_Degraded]).
Proof.
  split.
  - intros claim.
    assert (H : exists out,
               serveSlot Sample.overtaken Sample.agent_a [] 0 0 = Some out /\
               nondecreasing (map fst out) = false)
      by (vm_compute; eexists; split; reflexivity).
    destruct H as (out & Hserve & Hdown).
    rewrite (claim Sample.agent_a Sample.overtaken out eq_refl Hserve) in Hdown.
    discriminate Hdown.
  - vm_compute. eexists. split; [reflexivity|]. split; reflexivity.
Qed.

(** C7, amended: a local collection is the sweep followed by the
    publication, and in any run of sweeps, publications, registry
    changes, fetches from peers and served calls, however the
    collections interleave, every [LocalStatus] call is served the
    status most recently published to the slot before it (the status
    the slot started with when there is none): statuses are served in
    the order of their publication, which need not be the order of
    their sweeps. *)
Theorem served_status_is_latest_published
  (ops : list slotOp) (r : agent) (pend : sweptStatuses) (sweeps slot : nat) :
  mu r = false ->
  (forall ctx local,
      collectLocalStatus ctx local r
      = (let* status := sweepLocal ctx local in
         let* _ := publishLocal status in
         ret (Some status, None)) r) /\
  exists out,
    serveSlot ops r pend sweeps slot = Some out /\
    forall pre post, ops = pre ++ SlServe :: post ->
      snd <$> (out !! serves pre)
      = Some (List.last (publishedSlot pre r pend sweeps) (localStatus r)).
Proof.
  intros Hmu. split.
  - intros ctx local. apply collectLocalStatus_split.
  - now apply serveSlot_spec.
Qed.

Lemma served_status_is_latest_published_witness :
  exists out,
    serveSlot Sample.overtaken Sample.agent_a [] 0 0 = Some out /\
    snd <$> (out !! 1)
    = Some (Some (swept "a" [Sample.AlwaysFailChecker] Sample.a)).
Proof.
  destruct (served_status_is_latest_published Sample.overtaken Sample.agent_a
              [] 0 0 eq_refl) as (_ & out & Hserve & Hpos).
  exists out. split; [exact Hserve|].
  etransitivity.
  - exact (Hpos [SlRegistry [Sample.AlwaysFailChecker];
                 SlSweep 0 Background Sample.a;
                 SlRegistry [Sample.AlwaysOkChecker];
                 SlSweep 1 Background Sample.a;
                 SlPublish 1; SlServe; SlPublish 0;
                 SlRemote Background Sample.b true] [] eq_refl).
  - vm_compute. reflexivity.
Defined.

(** * More of the agent *)

(** ** The tasks of a collection *)

Lemma select_send_state (pick : bool) (respc respc' : chan)
      (resp : statusResponse) (r r' : agent) :
  select_send pick respc resp r = Some (respc', r') ->
  r' = r /\
  (respc' = send respc resp \/ is_closed (done r) = true /\ respc' = respc).
Proof.
  unfold select_send. unfold_M.
  destruct (can_send respc), (is_closed (done r)) eqn:Hc; try discriminate;
    try destruct pick; intros [= <- <-]; auto.
Qed.

(** X1: fetching the status of a peer never changes the agent: the slot,
    the log and the cache are as before.  The response names the member
    and holds either the status the peer returned, untouched, or the
    wrapped error of the dial or of the call; it is sent, or dropped
    when done is closed. *)
Theorem remote_fetch_leaves_agent
  (ctx : Context) (member : serf.Member) (pick : bool) (respc respc' : chan)
  (r r' : agent) :
  getStatusFrom ctx member pick respc r = Some (respc', r') ->
  r' = r /\
  exists resp,
    (respc' = send respc resp \/ is_closed (done r) = true /\ respc' = respc) /\
    resp_member resp = member /\
    match dialRPC r member with
    | inl e => resp_err resp = Some (trace.Wrap e "") /\ resp_NodeStatus resp = None
    | inr client =>
        match client_LocalStatus client ctx with
        | inl e => resp_err resp = Some (trace.Wrap e "") /\
                   resp_NodeStatus resp = None
        | inr status => resp_err resp = None /\ resp_NodeStatus resp = Some status
        end
    end.
Proof.
  unfold getStatusFrom, bind at 1, get. intros Hsel.
  apply select_send_state in Hsel. destruct Hsel as [-> Hsent].
  split; [reflexivity|]. eexists. split; [exact Hsent|].
  destruct (dialRPC r member) as [e|c]; [simpl; auto|].
  destruct (client_LocalStatus c ctx); simpl; auto.
Qed.

Lemma remote_fetch_leaves_agent_witness :
  Cases.agent_a_with_b = Cases.agent_a_with_b /\
  exists resp,
    (Cases.sent_b = send (make_chan 2) resp \/
     is_closed (done Cases.agent_a_with_b) = true /\
     Cases.sent_b = make_chan 2) /\
    resp_member resp = Sample.b /\
    match dialRPC Cases.agent_a_with_b Sample.b with
    | inl e => resp_err resp = Some (trace.Wrap e "") /\ resp_NodeStatus resp = None
    | inr client =>
        match client_LocalStatus client Background with
        | inl e => resp_err resp = Some (trace.Wrap e "") /\
                   resp_NodeStatus resp = None
        | inr status => resp_err resp = None /\ resp_NodeStatus resp = Some status
        end
    end.
Proof.
  apply (remote_fetch_leaves_agent Background Sample.b true (make_chan 2)
                                   Cases.sent_b).
  reflexivity.
Defined.

(** X2: the task for the local member never reports an error.  When the
    mutex is free and its select can proceed, it sweeps the registry,
    publishes the status to the slot, and sends that status with a nil
    error; when done is closed the response may be dropped, and the
    status is published all the same. *)
Theorem local_task_never_fails
  (ctx : Context) (local : serf.Member) (pick : bool) (respc : chan) (r : agent) :
  mu r = false ->
  can_send respc = true ->
  exists respc' r',
    getLocalStatus ctx local pick respc r = Some (respc', r') /\
    localStatus r' = Some (swept (name r) (Checkers r) local) /\
    (respc' = send respc
                (mkStatusResponse (Some (swept (name r) (Checkers r) local))
                                  local None) \/
     is_closed (done r) = true /\ respc' = respc).
Proof.
  intros Hmu Hroom. unfold getLocalStatus, bind at 1.
  rewrite (collectLocalStatus_eq _ _ _ Hmu).
  set (st := swept (name r) (Checkers r) local).
  set (r1 := set_localStatus (Some st) (log_checkers (Checkers r) r)).
  assert (Hd : done r1 = done r) by (unfold r1; now rewrite log_checkers_eq).
  unfold select_send. unfold_M. rewrite Hroom, Hd.
  destruct (is_closed (done r)); [destruct pick|];
    eexists _, _; (split; [reflexivity|]); split; auto.
Qed.

Lemma local_task_never_fails_witness :
  exists respc' r',
    getLocalStatus Background Sample.a false (make_chan 2) Sample.agent_a_closing
    = Some (respc', r') /\
    localStatus r'
    = Some (swept (name Sample.agent_a_closing)
                  (Checkers Sample.agent_a_closing) Sample.a) /\
    (respc' = send (make_chan 2)
                (mkStatusResponse
                   (Some (swept (name Sample.agent_a_closing)
                                (Checkers Sample.agent_a_closing) Sample.a))
                   Sample.a None) \/
     is_closed (done Sample.agent_a_closing) = true /\ respc' = make_chan 2).
Proof.
  apply (local_task_never_fails Background Sample.a false (make_chan 2)
                                Sample.agent_a_closing); reflexivity.
Defined.

(** ** The cluster status as a whole *)

Lemma node_for_eq (ctx : Context) (r : agent) (m : serf.Member) :
  node_for ctx r m
  = if is_local r m then Some (swept (name r) (Checkers r) m)
    else match dialRPC r m with
         | inl _ => Some (unknownNodeStatus m)
         | inr client =>
             match client_LocalStatus client ctx with
             | inl _ => Some (unknownNodeStatus m)
             | inr status => Some status
             end
         end.
Proof.
  unfold node_for, response_of, node_of_response, is_local.
  destruct (String.eqb _ _); [reflexivity|].
  destruct (dialRPC r m) as [|c]; [reflexivity|].
  destruct (client_LocalStatus c ctx); reflexivity.
Qed.

(** X3: the nodes of a collected status are the members' own nodes, one
    per member and in some order of completion: for the agent itself the
    status it sweeps, with the member status of its member; for a peer
    that answers, the status the peer returned, untouched; for a peer
    that cannot be dialled or does not answer, the Unknown status of the
    member.  While done is not closed the nodes are a permutation of
    these whatever the schedule; once done is closed some may be missing
    but none is added or repeated.  The timestamp is the one read at the
    start. *)
Theorem nodes_are_the_members_nodes
  (ctx : Context) (now : Z) (sched : schedule) (r : agent)
  (members : list serf.Member) :
  serf_Members (serf_client r) = inr members ->
  mu r = false ->
  exists systemStatus r',
    collectStatus ctx now sched r = Some (inr systemStatus, r') /\
    pb.SystemStatus_Timestamp systemStatus = now /\
    pb.SystemStatus_Nodes systemStatus ⊆+ map (node_for ctx r) members /\
    (is_closed (done r) = false ->
     pb.SystemStatus_Nodes systemStatus ≡ₚ map (node_for ctx r) members) /\
    forall m,
      node_for ctx r m
      = if is_local r m then Some (swept (name r) (Checkers r) m)
        else match dialRPC r m with
             | inl _ => Some (unknownNodeStatus m)
             | inr client =>
                 match client_LocalStatus client ctx with
                 | inl _ => Some (unknownNodeStatus m)
                 | inr status => Some status
                 end
             end.
Proof.
  intros Hmem Hmu.
  destruct (collectStatus_spec ctx now sched r members Hmem Hmu)
    as (responses & r1 & r' & _ & Hcoll & _ & _ & Hsub & Hopen).
  eexists _, r'. split; [exact Hcoll|]. split; [reflexivity|].
  assert (Hmap : map (node_for ctx r) members
                 = map node_of_response (map (response_of ctx r) members)).
  { rewrite map_map. reflexivity. }
  simpl. rewrite Hmap. split; [|split].
  - now apply fmap_submseteq.
  - intros Hnot. apply fmap_Permutation. now apply Hopen.
  - intros m. apply node_for_eq.
Qed.

Lemma nodes_are_the_members_nodes_witness :
  exists systemStatus r',
    collectStatus Background 5 [(1, true)] Cases.agent_a_with_b
    = Some (inr systemStatus, r') /\
    pb.SystemStatus_Timestamp systemStatus = 5%Z /\
    pb.SystemStatus_Nodes systemStatus
      ⊆+ map (node_for Background Cases.agent_a_with_b) [Sample.a; Sample.b] /\
    (is_closed (done Cases.agent_a_with_b) = false ->
     pb.SystemStatus_Nodes systemStatus
       ≡ₚ map (node_for Background Cases.agent_a_with_b) [Sample.a; Sample.b]) /\
    forall m,
      node_for Background Cases.agent_a_with_b m
      = if is_local Cases.agent_a_with_b m
        then Some (swept (name Cases.agent_a_with_b)
                         (Checkers Cases.agent_a_with_b) m)
        else match dialRPC Cases.agent_a_with_b m with
             | inl _ => Some (unknownNodeStatus m)
             | inr client =>
                 match client_LocalStatus client Background with
                 | inl _ => Some (unknownNodeStatus m)
                 | inr status => Some status
                 end
             end.
Proof.
  apply (nodes_are_the_members_nodes Background 5 [(1, true)]
           Cases.agent_a_with_b [Sample.a; Sample.b]); reflexivity.
Defined.

(** X4: [collectStatus] writes nothing but the local-status slot and the
    log: when the mutex is free it returns, and the registry, the serf
    client, the name, the RPC server, the cache, the dial function and
    the done channel are as before, and the mutex is free again. *)
Theorem collectStatus_frame
  (ctx : Context) (now : Z) (sched : schedule) (r : agent) :
  mu r = false ->
  exists res r',
    collectStatus ctx now sched r = Some (res, r') /\
    Checkers r' = Checkers r /\ serf_client r' = serf_client r /\
    name r' = name r /\ rpc_serving r' = rpc_serving r /\
    agent_cache r' = agent_cache r /\ dialRPC r' = dialRPC r /\
    done r' = done r /\ mu r' = false.
Proof.
  intros Hmu. destruct (serf_Members (serf_client r)) as [err|members] eqn:Hmem.
  - exists (inl (trace.Wrap err "failed to query serf members")), r.
    unfold collectStatus. unfold_M. rewrite Hmem. repeat split; auto.
  - destruct (collectStatus_spec ctx now sched r members Hmem Hmu)
      as (responses & r1 & r' & _ & Hcoll & Hs & _).
    eexists _, r'. split; [exact Hcoll|].
    destruct Hs as (?&?&?&?&?&?&?&Hm). repeat split; try assumption. congruence.
Qed.

Lemma collectStatus_frame_witness :
  exists res r',
    collectStatus Background 0 [] Sample.agent_a = Some (res, r') /\
    Checkers r' = Checkers Sample.agent_a /\
    serf_client r' = serf_client Sample.agent_a /\
    name r' = name Sample.agent_a /\
    rpc_serving r' = rpc_serving Sample.agent_a /\
    agent_cache r' = agent_cache Sample.agent_a /\
    dialRPC r' = dialRPC Sample.agent_a /\
    done r' = done Sample.agent_a /\ mu r' = false.
Proof.
  apply (collectStatus_frame Background 0 [] Sample.agent_a). reflexivity.
Defined.

Lemma runTasks_nil (ctx : Context) (sched : schedule) (respc : chan) (r : agent) :
  runTasks ctx sched [] respc r = Some (respc, r).
Proof. destruct sched as [|[i pick] sched]; reflexivity. Qed.

(** X5: with no members the collection starts no task and sweeps no
    checker: it logs that it started with 0 members and returns a status
    with no nodes, stamped with the time read, whatever the schedule and
    the state of the mutex; the slot is not written. *)
Theorem no_members_no_nodes
  (ctx : Context) (now : Z) (sched : schedule) (r : agent) :
  serf_Members (serf_client r) = inr [] ->
  collectStatus ctx now sched r
  = Some (inr (pb.mkSystemStatus pb.SystemStatus_Unknown now []),
          add_log (LogStartedCollecting 0 []) r).
Proof.
  intros Hmem. unfold collectStatus, bind at 1, get. rewrite Hmem.
  unfold bind at 1, Infof, modify. unfold bind at 1, collectResponses, bind at 1.
  rewrite runTasks_nil. reflexivity.
Qed.

Lemma no_members_no_nodes_witness :
  collectStatus Background 7 [(0, false)] Cases.agent_a_empty
  = Some (inr (pb.mkSystemStatus pb.SystemStatus_Unknown 7 []),
          add_log (LogStartedCollecting 0 []) Cases.agent_a_empty).
Proof.
  apply (no_members_no_nodes Background 7 [(0, false)] Cases.agent_a_empty).
  reflexivity.
Defined.

(** ** The slot after a collection *)

Lemma task_state (ctx : Context) (m : serf.Member) (pick : bool)
      (respc respc' : chan) (r r' : agent) :
  mu r = false ->
  task ctx m pick respc r = Some (respc', r') ->
  r' = after_task r m.
Proof.
  intros Hmu. rewrite (task_eq _ _ _ _ _ Hmu). intros Hsel.
  apply select_send_state in Hsel. tauto.
Qed.

Lemma after_task_mu (r : agent) (m : serf.Member) :
  mu (after_task r m) = mu r.
Proof. destruct (after_task_same_setup r m) as (_&_&_&_&_&_&_&Hm). exact Hm. Qed.

Lemma swept_same_setup (r r1 : agent) (m : serf.Member) :
  same_setup r r1 ->
  swept (name r1) (Checkers r1) m = swept (name r) (Checkers r) m /\
  is_local r1 m = is_local r m.
Proof.
  intros (HC & _ & Hn & _). unfold is_local. now rewrite HC, Hn.
Qed.

(** The slot after one task and the tasks for the rest. *)
Lemma slot_after_cons (r r' : agent) (m : serf.Member) (rest : list serf.Member) :
  slot_after (after_task r m) rest r' -> slot_after r (m :: rest) r'.
Proof.
  pose proof (after_task_same_setup r m) as Hs.
  intros [[Hnone Hslot] | (m' & Hin & Hloc & Hslot)].
  - unfold after_task in Hslot. fold (is_local r m) in Hslot.
    destruct (is_local r m) eqn:Hm.
    + right. exists m. split; [now left|]. split; [exact Hm|].
      rewrite Hslot. reflexivity.
    + left. split; [|exact Hslot]. constructor; [exact Hm|].
      eapply Forall_impl; [exact Hnone|]. intros x Hx. simpl in Hx.
      destruct (swept_same_setup _ _ x Hs) as [_ <-]. exact Hx.
  - right. destruct (swept_same_setup _ _ m' Hs) as [Hsw Hl].
    exists m'. split; [now right|]. split; [congruence|]. now rewrite <- Hsw.
Qed.

Lemma slot_after_perm (r r' : agent) (l l' : list serf.Member) :
  l ≡ₚ l' -> slot_after r l r' -> slot_after r l' r'.
Proof.
  intros Hp [[Hnone Hslot] | (m & Hin & Hloc & Hslot)].
  - left. split; [|exact Hslot]. now rewrite <- Hp.
  - right. exists m. split; [|auto].
    apply list_elem_of_In. rewrite <- Hp. now apply list_elem_of_In.
Qed.

Lemma runInOrder_slot (ctx : Context) (pending : list serf.Member) :
  forall (respc respc' : chan) (r r' : agent),
  mu r = false ->
  runInOrder ctx pending respc r = Some (respc', r') ->
  slot_after r pending r'.
Proof.
  induction pending as [|m rest IH]; intros respc respc' r r' Hmu Hrun.
  - simpl in Hrun. inversion Hrun; subst. left. split; [constructor|reflexivity].
  - simpl in Hrun. unfold bind in Hrun.
    destruct (task ctx m true respc r) as [[c1 r1]|] eqn:Htask; [|discriminate].
    pose proof (task_state _ _ _ _ _ _ _ Hmu Htask) as ->.
    apply slot_after_cons. eapply IH; [|exact Hrun].
    now rewrite after_task_mu.
Qed.

Lemma runTasks_slot (ctx : Context) (sched : schedule) :
  forall (pending : list serf.Member) (respc respc' : chan) (r r' : agent),
  mu r = false ->
  runTasks ctx sched pending respc r = Some (respc', r') ->
  slot_after r pending r'.
Proof.
  induction sched as [|[i pick] sched IH]; intros pending respc respc' r r' Hmu Hrun.
  - simpl in Hrun. eapply runInOrder_slot; eassumption.
  - simpl in Hrun.
    destruct (pending !! (i mod length pending)) as [m|] eqn:Hlook.
    + unfold bind in Hrun.
      destruct (task ctx m pick respc r) as [[c1 r1]|] eqn:Htask; [|discriminate].
      pose proof (task_state _ _ _ _ _ _ _ Hmu Htask) as ->.
      apply (slot_after_perm _ _ (m :: delete (i mod length pending) pending)).
      * symmetry. now apply delete_Permutation.
      * apply slot_after_cons. eapply IH; [|exact Hrun].
        now rewrite after_task_mu.
    + assert (Hnil : pending = []).
      { destruct pending as [|m0 rest]; [reflexivity|].
        apply lookup_ge_None in Hlook.
        pose proof (Nat.mod_upper_bound i (length (m0 :: rest))) as Hb.
        simpl in *. lia. }
      subst pending. inversion Hrun; subst.
      left. split; [constructor|reflexivity].
Qed.

(** X6: a collection refreshes the local-status slot exactly when the
    agent is among the members.  If no member bears the agent's name the
    slot is as before, whatever the peers answer; if one does, the slot
    holds the status swept for such a member when [collectStatus]
    returns, also when done is closed and the response was dropped. *)
Theorem slot_refreshed_by_local_member_only
  (ctx : Context) (now : Z) (sched : schedule) (r : agent)
  (members : list serf.Member) :
  serf_Members (serf_client r) = inr members ->
  mu r = false ->
  exists res r',
    collectStatus ctx now sched r = Some (res, r') /\
    ((forall m, In m members -> is_local r m = false) ->
     localStatus r' = localStatus r) /\
    ((exists m, In m members /\ is_local r m = true) ->
     exists m, In m members /\ is_local r m = true /\
               localStatus r' = Some (swept (name r) (Checkers r) m)).
Proof.
  intros Hmem Hmu.
  set (r0 := add_log (LogStartedCollecting (length members) members) r).
  unfold collectStatus, bind at 1, get. rewrite Hmem.
  unfold bind at 1, Infof, modify. fold r0.
  destruct (collectResponses_spec ctx sched members r0 Hmu)
    as (responses & r1 & Hresp & _).
  assert (Hslot1 : slot_after r0 members r1).
  { unfold collectResponses, bind in Hresp.
    destruct (runTasks ctx sched members (make_chan (length members)) r0)
      as [[c rr]|] eqn:Hrun; [|discriminate].
    unfold ret in Hresp. inversion Hresp; subst.
    eapply runTasks_slot; [exact Hmu|exact Hrun]. }
  destruct (drain_spec responses
              (pb.mkSystemStatus pb.SystemStatus_Unknown now []) r1)
    as (r' & Hdrain & _ & Hsame).
  unfold bind at 1. rewrite Hresp. unfold bind at 1. rewrite Hdrain.
  eexists _, r'. split; [reflexivity|]. rewrite Hsame.
  destruct Hslot1 as [[Hnone Hs] | (m & Hin & Hloc & Hs)].
  - split; [intros _; exact Hs|].
    intros (m & Hin & Hloc). exfalso.
    rewrite Forall_forall in Hnone.
    apply list_elem_of_In, Hnone in Hin. unfold is_local in *. simpl in Hin.
    congruence.
  - split; [|intros _; exists m; auto].
    intros Hnone. apply Hnone in Hin. unfold is_local in *. simpl in Hloc.
    congruence.
Qed.

Lemma slot_refreshed_by_local_member_only_witness :
  exists res r',
    collectStatus Background 0 [] Cases.agent_a_alone = Some (res, r') /\
    ((forall m, In m [Sample.b] -> is_local Cases.agent_a_alone m = false) ->
     localStatus r' = localStatus Cases.agent_a_alone) /\
    ((exists m, In m [Sample.b] /\ is_local Cases.agent_a_alone m = true) ->
     exists m, In m [Sample.b] /\ is_local Cases.agent_a_alone m = true /\
               localStatus r'
               = Some (swept (name Cases.agent_a_alone)
                             (Checkers Cases.agent_a_alone) m)).
Proof.
  apply (slot_refreshed_by_local_member_only Background 0 []
           Cases.agent_a_alone [Sample.b]); reflexivity.
Defined.

(** ** The cycle and the cache *)

(** X7: a cycle whose member enumeration succeeds calls [UpdateStatus]
    exactly once, with the status [collectStatus] returned.  A failure
    of the cache is not propagated: the task returns, the error is the
    last thing logged, and the status the cache holds is as before. *)
Theorem successful_cycle_writes_cache_once
  (ctx : Context) (now : Z) (sched : schedule) (r : agent)
  (members : list serf.Member) :
  serf_Members (serf_client r) = inr members ->
  mu r = false ->
  exists systemStatus r1 r',
    collectStatus ctx now sched r = Some (inr systemStatus, r1) /\
    collectionTask ctx now sched r = Some (tt, r') /\
    agent_cache r'
    = fst (cache.UpdateStatus (agent_cache r) systemStatus) /\
    cache.writes (agent_cache r') = S (cache.writes (agent_cache r)) /\
    match cache.failing (agent_cache r) with
    | None => cache.RecentStatus (agent_cache r') = Some systemStatus /\
              logged r' = logged r1
    | Some e => cache.RecentStatus (agent_cache r')
                = cache.RecentStatus (agent_cache r) /\
                logged r' = logged r1 ++ [LogErrCache e]
    end.
Proof.
  intros Hmem Hmu.
  destruct (collectStatus_spec ctx now sched r members Hmem Hmu)
    as (responses & r0 & r1 & _ & Hcoll & Hs & _).
  destruct Hs as (_&_&_&_&Hcache&_).
  eexists _, r1. unfold collectionTask, bind at 1. rewrite Hcoll.
  unfold_M. rewrite Hcache. unfold cache.UpdateStatus, cache.RecentStatus.
  destruct (cache.failing (agent_cache r)) as [e|]; simpl;
    eexists; (split; [reflexivity|]); (split; [reflexivity|]); simpl; auto.
Qed.

Lemma successful_cycle_writes_cache_once_witness :
  exists systemStatus r1 r',
    collectStatus Background 0 [] Cases.agent_a_bad_cache
    = Some (inr systemStatus, r1) /\
    collectionTask Background 0 [] Cases.agent_a_bad_cache = Some (tt, r') /\
    agent_cache r'
    = fst (cache.UpdateStatus (agent_cache Cases.agent_a_bad_cache) systemStatus) /\
    cache.writes (agent_cache r')
    = S (cache.writes (agent_cache Cases.agent_a_bad_cache)) /\
    match cache.failing (agent_cache Cases.agent_a_bad_cache) with
    | None => cache.RecentStatus (agent_cache r') = Some systemStatus /\
              logged r' = logged r1
    | Some e => cache.RecentStatus (agent_cache r')
                = cache.RecentStatus (agent_cache Cases.agent_a_bad_cache) /\
                logged r' = logged r1 ++ [LogErrCache e]
    end.
Proof.
  apply (successful_cycle_writes_cache_once Background 0 []
           Cases.agent_a_bad_cache [Sample.a; Sample.b]); reflexivity.
Defined.

(** ** Start and Close *)

(** X8: whatever closing the serf client returns, a [Close] that returns
    has stopped the RPC server and closed the done channel before it
    looks at the serf client: an error from [Close] does not mean the
    loop was left running.  Nothing else of the agent changes. *)
Theorem Close_signals_before_serf_error
  (r r' : agent) (res : option error) :
  Close r = Some (Returns res, r') ->
  done r = ChanOpen /\
  r' = set_done ChanClosed (set_rpc_serving false r) /\
  rpc_serving r' = false /\ done r' = ChanClosed /\
  res = match serf_Close (serf_client r) with
        | Some err => Some (trace.Wrap err "")
        | None => None
        end.
Proof.
  unfold Close. unfold_M. simpl.
  destruct (done r) eqn:Hd; try discriminate.
  destruct (serf_Close (serf_client r)); intros [= <- <-]; repeat split.
Qed.

Lemma Close_signals_before_serf_error_witness :
  done Sample.agent_a_bad_close = ChanOpen /\
  set_done ChanClosed (set_rpc_serving false Sample.agent_a_bad_close)
  = set_done ChanClosed (set_rpc_serving false Sample.agent_a_bad_close) /\
  rpc_serving
    (set_done ChanClosed (set_rpc_serving false Sample.agent_a_bad_close))
  = false /\
  done (set_done ChanClosed (set_rpc_serving false Sample.agent_a_bad_close))
  = ChanClosed /\
  Some (trace.Wrap (ErrNew "broken pipe") "")
  = match serf_Close (serf_client Sample.agent_a_bad_close) with
    | Some err => Some (trace.Wrap err "")
    | None => None
    end.
Proof.
  apply (Close_signals_before_serf_error Sample.agent_a_bad_close).
  reflexivity.
Defined.

(** X9: [Close] panics unless [Start] has run and [Close] has not
    returned since: before [Start] it closes a nil channel, and a second
    [Close] closes a closed one.  In both cases the RPC server has been
    stopped before the panic and the serf client is not closed.  After
    [Start], [Close] returns, and the [Close] after that panics. *)
Theorem Close_panics_unless_started_once (r : agent) :
  (done r <> ChanOpen ->
   exists msg, Close r = Some (Panics msg, set_rpc_serving false r)) /\
  (exists res r1 r2 msg r3,
      Start r = Some (None, r1) /\
      Close r1 = Some (Returns res, r2) /\
      Close r2 = Some (Panics msg, r3)).
Proof.
  assert (Hpanic : forall r0, done r0 <> ChanOpen ->
            exists msg, Close r0 = Some (Panics msg, set_rpc_serving false r0)).
  { intros r0 Hnot. unfold Close. unfold_M. simpl.
    destruct (done r0); [eexists; reflexivity|contradiction|eexists; reflexivity]. }
  split; [apply Hpanic|].
  set (r1 := set_done ChanOpen r).
  set (r2 := set_done ChanClosed (set_rpc_serving false r1)).
  destruct (Hpanic r2) as [msg Hsecond]; [discriminate|].
  eexists _, r1, r2, msg, _.
  split; [reflexivity|]. split; [|exact Hsecond].
  apply (Close_open r1). reflexivity.
Qed.

Lemma Close_panics_unless_started_once_witness :
  exists r',
    New Sample.config_a Sample.outside_ok = inr r' /\
    exists msg, Close r' = Some (Panics msg, set_rpc_serving false r').
Proof.
  eexists. split; [reflexivity|].
  apply (proj1 (Close_panics_unless_started_once _)). discriminate.
Defined.

(** ** Construction *)

Lemma listenAll_None (o : Outside) (addrs : list string) :
  listenAll o addrs = None <-> Forall (fun a => Listen o a = None) addrs.
Proof.
  induction addrs as [|a addrs IH]; simpl.
  - split; [constructor|reflexivity].
  - destruct (Listen o a) eqn:Ha.
    + split; [discriminate|]. intros H. inversion H; subst. congruence.
    + rewrite IH. split; [now constructor|]. intros H. now inversion H.
Qed.

Lemma listenLoop_bound (o : Outside) (pre : list string) :
  forall (rest listeners : list string),
  Forall (fun a => Listen o a = None) pre ->
  listenLoop o (pre ++ rest) listeners = listenLoop o rest (listeners ++ pre).
Proof.
  induction pre as [|a pre IH]; intros rest listeners Hall; simpl.
  - now rewrite app_nil_r.
  - inversion Hall as [|? ? Ha Hpre]; subst. rewrite Ha, IH by assumption.
    now rewrite <- app_assoc.
Qed.

Lemma listenLoop_listenAll (o : Outside) (addrs : list string) :
  forall listeners, fst (listenLoop o addrs listeners) = listenAll o addrs.
Proof.
  induction addrs as [|a addrs IH]; intros listeners; simpl; [reflexivity|].
  destruct (Listen o a); [reflexivity|apply IH].
Qed.

Lemma New_listeners_fst (config : Config) (o : Outside) :
  fst (New_listeners config o) = New config o.
Proof.
  unfold New_listeners, New.
  destruct (ClientFromConfig o _); [reflexivity|].
  destruct (UpdateTags o _); [reflexivity|].
  rewrite <- (listenLoop_listenAll o (cfg_RPCAddrs config) []).
  destruct (listenLoop o (cfg_RPCAddrs config) []) as [[e|] listeners];
    reflexivity.
Qed.

(** X10: [New] returns an agent exactly when the serf client connects,
    the tags (the empty map when the configuration has none) are
    accepted, and every RPC address can be bound; the agent then has
    the configured name and cache, an empty registry, no done channel
    yet, a running RPC server and a log with nothing in it. *)
Theorem New_succeeds_iff (config : Config) (o : Outside) :
  (exists r, New config o = inr r) <->
  (exists client,
      ClientFromConfig o (cfg_SerfRPCAddr config) = inr client /\
      UpdateTags o (match cfg_Tags config with Some t => t | None => ∅ end)
      = None /\
      Forall (fun a => Listen o a = None) (cfg_RPCAddrs config) /\
      New config o
      = inr (mkAgent [] client (cfg_Name config) true (cfg_Cache config)
                     (defaultDialRPC o) ChanNil false
                     (Some (emptyNodeStatus (cfg_Name config))) [])).
Proof.
  unfold New. split.
  - intros [r Hnew].
    destruct (ClientFromConfig o _) as [|client]; [discriminate|].
    destruct (UpdateTags o _); [discriminate|].
    destruct (listenAll o _) eqn:Hl; [discriminate|].
    exists client. repeat split. now apply listenAll_None.
  - intros (client & -> & -> & Hall & _).
    apply listenAll_None in Hall. rewrite Hall. eexists. reflexivity.
Qed.

(** X11: when binding an RPC address fails, [New] returns the wrapped
    error and the listeners bound before it are left open.  The deferred
    function closes them only when the function's variable [err] is not
    nil, and that variable is the result of updating the tags, which
    was nil: the loop's [err] is a variable of its own. *)
Theorem New_leaves_listeners_open
  (config : Config) (o : Outside) (client : serfClient)
  (pre post : list string) (addr : string) (e : error) :
  ClientFromConfig o (cfg_SerfRPCAddr config) = inr client ->
  UpdateTags o (match cfg_Tags config with Some t => t | None => ∅ end) = None ->
  cfg_RPCAddrs config = pre ++ addr :: post ->
  Forall (fun a => Listen o a = None) pre ->
  Listen o addr = Some e ->
  New config o = inl (trace.Wrap e "") /\
  New_listeners config o = (inl (trace.Wrap e ""), pre).
Proof.
  intros Hc Ht Haddrs Hpre Hfail.
  assert (Hl : New_listeners config o = (inl (trace.Wrap e ""), pre)).
  { unfold New_listeners. rewrite Hc, Ht, Haddrs.
    rewrite (listenLoop_bound o pre (addr :: post) [] Hpre). simpl.
    rewrite Hfail. reflexivity. }
  split; [|exact Hl]. rewrite <- New_listeners_fst, Hl. reflexivity.
Qed.

Lemma New_leaves_listeners_open_witness :
  New Sample.config_a Cases.outside_second_busy
  = inl (trace.Wrap (ErrNew "address already in use") "") /\
  New_listeners Sample.config_a Cases.outside_second_busy
  = (inl (trace.Wrap (ErrNew "address already in use") ""), ["127.0.0.1:7575"]).
Proof.
  apply (New_leaves_listeners_open Sample.config_a Cases.outside_second_busy
           (mkSerfClient (inr [Sample.a; Sample.b]) None)
           ["127.0.0.1:7575"] [] "10.0.0.1:7575").
  - reflexivity.
  - reflexivity.
  - reflexivity.
  - repeat constructor.
  - reflexivity.
Defined.

(** ** More on the status-update loop *)

(** X12: the loop starts a collection only on a tick: in every run from
    the initial state the number of contexts made, and so of collections
    started, is at most the number of times the timer fired; a run in
    which no timer fires starts none. *)
Theorem collections_need_ticks (r : agent) (es : list event) (s : system) :
  run es (initial r) = Some s ->
  length (contexts s) <= timers es /\
  length (inflight s) <= timers es.
Proof.
  intros Hrun.
  pose proof (run_budget es _ _ Hrun) as Hb. unfold tick_budget in Hb. simpl in Hb.
  assert (Hlen : length (contexts s) <= timers es) by lia.
  split; [exact Hlen|].
  destruct (run_ctx_inv es _ _ (ctx_inv_initial r) Hrun) as (_ & _ & Hnd & Hlt).
  assert (Hsub : inflight s ⊆ seq 0 (length (contexts s))).
  { intros n Hn. apply list_elem_of_In in Hn. apply Hlt in Hn.
    apply list_elem_of_In, in_seq. lia. }
  pose proof (submseteq_length _ _ (NoDup_submseteq _ _ Hnd Hsub)) as Hle.
  rewrite length_seq in Hle. lia.
Qed.

Lemma collections_need_ticks_witness :
  exists s,
    run Sample.overrun (initial Sample.agent_a) = Some s /\
    length (contexts s) <= timers Sample.overrun /\
    length (inflight s) <= timers Sample.overrun.
Proof.
  eexists. split; [reflexivity|].
  apply (collections_need_ticks Sample.agent_a Sample.overrun). reflexivity.
Defined.

Lemma finish_nth_keeps_done (why : ctxErr) (m n : nat) (cs : list Context)
      (c : Context) :
  cs !! n = Some c -> ctx_done c = true -> finish_nth why m cs !! n = Some c.
Proof.
  intros Hn Hc. unfold finish_nth. destruct (cs !! m) as [c0|] eqn:Hm; [|exact Hn].
  destruct (decide (m = n)) as [->|Hne].
  - rewrite list_lookup_insert_eq by (eapply lookup_lt_Some; eassumption).
    rewrite Hn in Hm. injection Hm as <-. now rewrite finish_ctx_id.
  - now rewrite list_lookup_insert_ne.
Qed.

Lemma step_keeps_done (e : event) (s s' : system) (n : nat) (c : Context) :
  step e s = Some s' ->
  contexts s !! n = Some c -> ctx_done c = true ->
  contexts s' !! n = Some c.
Proof.
  intros Hstep Hn Hc.
  destruct e as [| |pick|m|m now sched| |ch|]; unfold step in Hstep.
  - destruct (pc s); try discriminate. inversion Hstep; subst. exact Hn.
  - destruct (pc s); try discriminate. inversion Hstep; subst. exact Hn.
  - unfold loop_step in Hstep. destruct (pc s) as [| |m|]; try discriminate.
    + destruct (ticked s), (is_closed _), pick; inversion Hstep; subst; simpl;
        try exact Hn;
        (rewrite lookup_app_l; [exact Hn|eapply lookup_lt_Some; eassumption]).
    + destruct (contexts s !! m) as [c0|]; [|discriminate].
      destruct (ctx_done c0), (is_closed _), pick; inversion Hstep; subst; simpl;
        try exact Hn; now apply finish_nth_keeps_done.
  - destruct (contexts s !! m) as [c0|]; [|discriminate].
    destruct (ctx_done c0); [discriminate|]. inversion Hstep; subst. simpl.
    now apply finish_nth_keeps_done.
  - destruct (contexts s !! m) as [c0|]; [|discriminate].
    destruct (bool_decide _); [|discriminate].
    destruct (collectionTask c0 now sched (the_agent s)) as [[[] r]|]; [|discriminate].
    inversion Hstep; subst. simpl. now apply finish_nth_keeps_done.
  - destruct (Close (the_agent s)) as [[[res|msg] r]|]; try discriminate.
    inversion Hstep; subst. exact Hn.
  - unfold AddChecker, modify in Hstep. inversion Hstep; subst. exact Hn.
  - destruct (LocalStatus (the_agent s)) as [[v r]|]; [|discriminate].
    inversion Hstep; subst. exact Hn.
Qed.

(** X13: a context that is done stays done with the cause it has: once
    the deadline of a collection has passed, the [cancel] deferred by
    its task or called by the loop on shutdown does not turn the cause
    into Canceled, and a context cancelled first is not timed out
    later; no event removes or renumbers a context. *)
Theorem done_context_is_final
  (es : list event) (s s' : system) (n : nat) (c : Context) :
  run es s = Some s' ->
  contexts s !! n = Some c ->
  ctx_done c = true ->
  contexts s' !! n = Some c.
Proof.
  revert s. induction es as [|e es IH]; intros s Hrun Hn Hc; simpl in Hrun.
  - inversion Hrun; subst. exact Hn.
  - destruct (step e s) as [s1|] eqn:Hstep; [|discriminate].
    eapply IH; [exact Hrun| |exact Hc]. eapply step_keeps_done; eassumption.
Qed.

Lemma done_context_is_final_witness :
  run [EvCollected 0 0 []; EvLoop true]
      (Cases.reached Cases.timed_out Sample.agent_a)
  = Some (Cases.reached (Cases.timed_out ++ [EvCollected 0 0 []; EvLoop true])
                        Sample.agent_a) /\
  contexts (Cases.reached (Cases.timed_out ++ [EvCollected 0 0 []; EvLoop true])
                          Sample.agent_a) !! 0
  = Some (mkContext (Some DeadlineExceeded)).
Proof.
  assert (Hrun : run [EvCollected 0 0 []; EvLoop true]
                     (Cases.reached Cases.timed_out Sample.agent_a)
                 = Some (Cases.reached
                           (Cases.timed_out ++ [EvCollected 0 0 []; EvLoop true])
                           Sample.agent_a))
    by (vm_compute; reflexivity).
  split; [exact Hrun|].
  apply (done_context_is_final _ _ _ 0 _ Hrun); vm_compute; reflexivity.
Defined.

(** X14: while a collection is under way the loop waits: with done open
    and the context it waits on live, the loop has no turn.  The
    deadline can then pass, and after it the loop's turn logs the
    time-out and goes back to waiting for a tick, whatever the
    collection does: the collection is left in flight. *)
Theorem deadline_releases_loop (s : system) (n : nat) (c : Context) :
  pc s = AtWait n ->
  contexts s !! n = Some c ->
  ctx_done c = false ->
  is_closed (done (the_agent s)) = false ->
  (forall pick, step (EvLoop pick) s = None) /\
  exists s1,
    step (EvDeadline n) s = Some s1 /\
    contexts s1 !! n = Some (mkContext (Some DeadlineExceeded)) /\
    forall pick, exists s2,
      step (EvLoop pick) s1 = Some s2 /\
      pc s2 = AtTick /\ ticked s2 = false /\
      inflight s2 = inflight s /\
      logged (the_agent s2) = logged (the_agent s) ++ [LogTimedOut].
Proof.
  intros Hpc Hn Hc Hopen.
  assert (Hlt : n < length (contexts s)) by (eapply lookup_lt_Some; eassumption).
  assert (Hfin : finish_nth DeadlineExceeded n (contexts s) !! n
                 = Some (mkContext (Some DeadlineExceeded))).
  { unfold finish_nth. rewrite Hn, list_lookup_insert_eq by assumption.
    unfold finish_ctx. unfold ctx_done in Hc.
    destruct (ctx_Err c); [discriminate|reflexivity]. }
  split.
  - intros pick. simpl. unfold loop_step. now rewrite Hpc, Hn, Hc, Hopen.
  - eexists. simpl. rewrite Hn, Hc. split; [reflexivity|]. simpl.
    split; [exact Hfin|].
    intros pick. unfold loop_step. simpl. rewrite Hpc, Hfin, Hopen. simpl.
    eexists. split; [reflexivity|]. simpl. auto.
Qed.

Lemma deadline_releases_loop_witness :
  exists s,
    run Sample.collecting (initial Sample.agent_a) = Some s /\
    (forall pick, step (EvLoop pick) s = None) /\
    exists s1,
      step (EvDeadline 0) s = Some s1 /\
      contexts s1 !! 0 = Some (mkContext (Some DeadlineExceeded)) /\
      forall pick, exists s2,
        step (EvLoop pick) s1 = Some s2 /\
        pc s2 = AtTick /\ ticked s2 = false /\
        inflight s2 = inflight s /\
        logged (the_agent s2) = logged (the_agent s) ++ [LogTimedOut].
Proof.
  eexists. split; [reflexivity|].
  apply (deadline_releases_loop _ 0 (mkContext None)); reflexivity.
Defined.

(** X15: when the collection returns before its deadline the loop moves
    on without logging a time-out: the task's deferred [cancel] ends the
    context with cause Canceled, the collection is no longer in flight,
    and the loop's turn goes back to waiting for a tick and leaves the
    agent as the task left it. *)
Theorem timely_collection_is_silent
  (s s1 : system) (n : nat) (c : Context) (now : Z) (sched : schedule) :
  pc s = AtWait n ->
  contexts s !! n = Some c ->
  ctx_done c = false ->
  is_closed (done (the_agent s)) = false ->
  mu (the_agent s) = false ->
  step (EvCollected n now sched) s = Some s1 ->
  contexts s1 !! n = Some (mkContext (Some Canceled)) /\
  ~ In n (inflight s1) /\
  forall pick, exists s2,
    step (EvLoop pick) s1 = Some s2 /\
    pc s2 = AtTick /\ the_agent s2 = the_agent s1.
Proof.
  intros Hpc Hn Hc Hopen Hmu Hstep.
  assert (Hlt : n < length (contexts s)) by (eapply lookup_lt_Some; eassumption).
  assert (Hfin : finish_nth Canceled n (contexts s) !! n
                 = Some (mkContext (Some Canceled))).
  { unfold finish_nth. rewrite Hn, list_lookup_insert_eq by assumption.
    unfold finish_ctx. unfold ctx_done in Hc.
    destruct (ctx_Err c); [discriminate|reflexivity]. }
  simpl in Hstep. rewrite Hn in Hstep.
  destruct (bool_decide _); [|discriminate].
  destruct (collectionTask_spec c now sched (the_agent s) Hmu)
    as (r' & Htask & _ & _ & Hd).
  rewrite Htask in Hstep. inversion Hstep; subst. simpl.
  split; [exact Hfin|]. split.
  - unfold remove_id. rewrite List.filter_In, Nat.eqb_refl. intros [_ H]. discriminate.
  - intros pick. unfold loop_step. simpl. rewrite Hpc, Hfin, Hd, Hopen. simpl.
    eexists. split; [reflexivity|]. simpl. auto.
Qed.

Lemma timely_collection_is_silent_witness :
  contexts (Cases.reached (Sample.collecting ++ [EvCollected 0 0 []])
                          Sample.agent_a) !! 0
  = Some (mkContext (Some Canceled)) /\
  ~ In 0 (inflight (Cases.reached (Sample.collecting ++ [EvCollected 0 0 []])
                                  Sample.agent_a)) /\
  forall pick, exists s2,
    step (EvLoop pick)
         (Cases.reached (Sample.collecting ++ [EvCollected 0 0 []]) Sample.agent_a)
    = Some s2 /\
    pc s2 = AtTick /\
    the_agent s2
    = the_agent (Cases.reached (Sample.collecting ++ [EvCollected 0 0 []])
                               Sample.agent_a).
Proof.
  apply (timely_collection_is_silent
           (Cases.reached Sample.collecting Sample.agent_a) _ 0
           (mkContext None) 0 []); vm_compute; reflexivity.
Defined.

(** X16: only a collection writes the cache or the local-status slot: an
    event of any other kind (start, tick, a turn of the loop, a
    deadline, close, a checker added, a served call) leaves the cache
    and the slot of the agent as they were. *)
Theorem only_collections_write (e : event) (s s' : system) :
  is_collected e = false ->
  step e s = Some s' ->
  agent_cache (the_agent s') = agent_cache (the_agent s) /\
  localStatus (the_agent s') = localStatus (the_agent s).
Proof.
  intros Hkind Hstep.
  destruct e as [| |pick|n|n now sched| |c|]; try discriminate Hkind;
    unfold step in Hstep.
  - destruct (pc s); try discriminate. inversion Hstep; subst. simpl. auto.
  - destruct (pc s); try discriminate. inversion Hstep; subst. simpl. auto.
  - unfold loop_step in Hstep. destruct (pc s) as [| |n|]; try discriminate.
    + destruct (ticked s), (is_closed _), pick; inversion Hstep; subst; simpl; auto.
    + destruct (contexts s !! n) as [c|]; [|discriminate].
      destruct (ctx_done c), (is_closed _), pick; inversion Hstep; subst; simpl;
        auto; destruct (ctx_Err c) as [[]|]; simpl; auto.
  - destruct (contexts s !! n) as [c|]; [|discriminate].
    destruct (ctx_done c); [discriminate|]. inversion Hstep; subst. simpl. auto.
  - unfold Close in Hstep. unfold_M. simpl in Hstep.
    destruct (done (the_agent s)); try discriminate.
    destruct (serf_Close _); inversion Hstep; subst; simpl; auto.
  - unfold AddChecker, modify in Hstep. inversion Hstep; subst. simpl. auto.
  - unfold LocalStatus, recentLocalStatus in Hstep. unfold_M.
    destruct (mu (the_agent s)); [discriminate|].
    inversion Hstep; subst. simpl. auto.
Qed.

Lemma only_collections_write_witness :
  exists s s',
    run Sample.collecting (initial Sample.agent_a) = Some s /\
    step EvClose s = Some s' /\
    agent_cache (the_agent s') = agent_cache (the_agent s) /\
    localStatus (the_agent s') = localStatus (the_agent s).
Proof.
  eexists _, _. split; [reflexivity|]. split; [reflexivity|].
  apply (only_collections_write EvClose); reflexivity.
Defined.

Lemma New_succeeds_iff_witness :
  exists client,
    ClientFromConfig Sample.outside_ok (cfg_SerfRPCAddr Sample.config_a)
    = inr client /\
    UpdateTags Sample.outside_ok
               (match cfg_Tags Sample.config_a with Some t => t | None => ∅ end)
    = None /\
    Forall (fun a => Listen Sample.outside_ok a = None)
           (cfg_RPCAddrs Sample.config_a) /\
    New Sample.config_a Sample.outside_ok
    = inr (mkAgent [] client (cfg_Name Sample.config_a) true
                   (cfg_Cache Sample.config_a)
                   (defaultDialRPC Sample.outside_ok) ChanNil false
                   (Some (emptyNodeStatus (cfg_Name Sample.config_a))) []).
Proof.
  apply (proj1 (New_succeeds_iff Sample.config_a Sample.outside_ok)).
  eexists. reflexivity.
Defined.

(** * The monitoring checkers *)

Lemma etcdCheckers_eq (name : string) (transport : monitoring.Transport)
      (endpoints : list string) :
  forall checkers,
  monitoring.etcdCheckers name transport endpoints checkers
  = inr (checkers ++
         map (fun endpoint =>
                monitoring.HTTPHealthz name (endpoint +:+ "/health")
                  (Some transport) None monitoring.etcdChecker)
             endpoints).
Proof.
  induction endpoints as [|endpoint rest IH]; intros checkers; simpl.
  - now rewrite app_nil_r.
  - rewrite IH, <- app_assoc. reflexivity.
Qed.

(** X17: [EtcdHealth] fails only when the HTTP transport cannot be made,
    with that error wrapped.  Otherwise it returns one composite checker
    named etcd-healthz that holds one HTTP checker per configured
    endpoint, in the order of the configuration, each named
    etcd-healthz, probing the endpoint's /health over the one shared
    transport; with no endpoint the composite is empty. *)
Theorem EtcdHealth_one_checker_per_endpoint (config : monitoring.ETCDConfig) :
  match monitoring.newHTTPTransport config with
  | inl err => monitoring.EtcdHealth config = inl (trace.Wrap err "")
  | inr transport =>
      monitoring.EtcdHealth config
      = inr (monitoring.Composite "etcd-healthz"
               (map (fun endpoint =>
                       monitoring.HTTPHealthz "etcd-healthz"
                         (endpoint +:+ "/health") (Some transport) None
                         monitoring.etcdChecker)
                    (monitoring.Endpoints config)))
  end.
Proof.
  unfold monitoring.EtcdHealth.
  destruct (monitoring.newHTTPTransport config) as [err|transport];
    [reflexivity|].
  now rewrite etcdCheckers_eq.
Qed.

(** * The log formatters *)

Lemma findFrame_loop_found (stack : list tracelog.Frame) (n : nat) :
  forall (i k : nat),
  tracelog.findFrame_loop stack i n = Z.of_nat k ->
  i <= k < i + n /\
  (exists fr, tracelog.Caller stack k = Some fr /\ in_logrus fr = false) /\
  forall j, i <= j < k ->
            exists fj, tracelog.Caller stack j = Some fj /\ in_logrus fj = true.
Proof.
  induction n as [|n IH]; intros i k Hfind; simpl in Hfind; [lia|].
  destruct (tracelog.Caller stack i) as [fr|] eqn:Hi; [|lia].
  fold (in_logrus fr) in Hfind.
  destruct (in_logrus fr) eqn:Hfile; simpl in Hfind.
  - destruct (IH _ _ Hfind) as (Hk & Hfr & Hbefore).
    split; [lia|]. split; [exact Hfr|].
    intros j Hj. destruct (decide (j = i)) as [->|Hne]; [eauto|].
    apply Hbefore. lia.
  - assert (k = i) by lia. subst k.
    split; [lia|]. split; [eauto|]. intros j Hj. lia.
Qed.

Lemma findFrame_loop_none (stack : list tracelog.Frame) (n : nat) :
  forall (i : nat),
  tracelog.findFrame_loop stack i n = (-1)%Z <->
  exists m, i <= m <= i + n /\
            (m < i + n -> tracelog.Caller stack m = None) /\
            forall j, i <= j < m ->
                      exists fj, tracelog.Caller stack j = Some fj /\
                                 in_logrus fj = true.
Proof.
  induction n as [|n IH]; intros i; simpl.
  - split; [|reflexivity]. intros _. exists i. repeat split; try lia.
  - destruct (tracelog.Caller stack i) as [fr|] eqn:Hi.
    + fold (in_logrus fr). destruct (in_logrus fr) eqn:Hfile; simpl.
      * rewrite IH. split.
        -- intros (m & Hm & Hend & Hbefore). exists m.
           split; [lia|]. split; [intros; apply Hend; lia|].
           intros j Hj. destruct (decide (j = i)) as [->|Hne]; [eauto|].
           apply Hbefore. lia.
        -- intros (m & Hm & Hend & Hbefore).
           assert (m <> i) by (intros ->; rewrite Hend in Hi by lia; discriminate).
           exists m. split; [lia|]. split; [intros; apply Hend; lia|].
           intros j Hj. apply Hbefore. lia.
      * split; [lia|]. intros (m & Hm & Hend & Hbefore). exfalso.
        destruct (decide (m = i)) as [->|Hne].
        -- rewrite Hend in Hi by lia. discriminate.
        -- destruct (Hbefore i) as (fj & Hfj & Hlog); [lia|]. congruence.
    + split; [|reflexivity]. intros _. exists i.
      split; [lia|]. split; [auto|]. intros j Hj. lia.
Qed.

(** X18: a frame [findFrame] returns is the first frame outside logrus at
    depth 3 or more: it lies between 3 and 9, its file does not contain
    Sirupsen/logrus, and every frame from 3 up to it is a frame of
    logrus. *)
Theorem findFrame_first_outside_logrus (stack : list tracelog.Frame) (k : nat) :
  tracelog.findFrame stack = Z.of_nat k ->
  3 <= k <= 9 /\
  (exists fr, tracelog.Caller stack k = Some fr /\
              tracelog.Contains (tracelog.frame_file fr) "Sirupsen/logrus"
              = false) /\
  forall j, 3 <= j < k ->
    exists fj, tracelog.Caller stack j = Some fj /\
               tracelog.Contains (tracelog.frame_file fj) "Sirupsen/logrus"
               = true.
Proof.
  intros Hfind. apply findFrame_loop_found in Hfind.
  destruct Hfind as (Hk & Hfr & Hbefore). split; [lia|]. split; assumption.
Qed.

Lemma findFrame_first_outside_logrus_witness :
  3 <= 5 <= 9 /\
  (exists fr, tracelog.Caller Cases.stack 5 = Some fr /\
              tracelog.Contains (tracelog.frame_file fr) "Sirupsen/logrus"
              = false) /\
  forall j, 3 <= j < 5 ->
    exists fj, tracelog.Caller Cases.stack j = Some fj /\
               tracelog.Contains (tracelog.frame_file fj) "Sirupsen/logrus"
               = true.
Proof.
  apply (findFrame_first_outside_logrus Cases.stack 5). reflexivity.
Defined.

(** X19: [findFrame] returns -1 or a frame number from 3 to 9, and it
    returns -1 exactly when the scan from frame 3 meets only frames of
    logrus until the stack ends or frame 9 has been looked at: a caller
    more than seven frames deep in logrus is not found. *)
Theorem findFrame_gives_up (stack : list tracelog.Frame) :
  (tracelog.findFrame stack = (-1)%Z \/
   (3 <= tracelog.findFrame stack <= 9)%Z) /\
  (tracelog.findFrame stack = (-1)%Z <->
   exists m, 3 <= m <= 10 /\
             (m < 10 -> tracelog.Caller stack m = None) /\
             forall j, 3 <= j < m ->
               exists fj, tracelog.Caller stack j = Some fj /\
                          tracelog.Contains (tracelog.frame_file fj)
                                            "Sirupsen/logrus" = true).
Proof.
  split.
  - destruct (tracelog.findFrame stack) as [|p|p] eqn:Hf.
    + apply (findFrame_loop_found stack 7 3 0) in Hf. lia.
    + right. rewrite <- (positive_nat_Z p) in Hf.
      apply findFrame_loop_found in Hf. lia.
    + left. unfold tracelog.findFrame in Hf.
      assert (Hcases : forall n i, tracelog.findFrame_loop stack i n = (-1)%Z \/
                                   (0 <= tracelog.findFrame_loop stack i n)%Z).
      { induction n as [|n IH]; intros i; simpl; [auto|].
        destruct (tracelog.Caller stack i); [|auto].
        destruct (negb _); [right; lia|apply IH]. }
      destruct (Hcases 7 3) as [H|H]; [congruence|]. rewrite Hf in H. lia.
  - unfold tracelog.findFrame. rewrite findFrame_loop_none. reflexivity.
Qed.

Lemma findFrame_gives_up_witness :
  tracelog.findFrame [] = (-1)%Z.
Proof.
  apply (proj2 (findFrame_gives_up [])). exists 3.
  split; [lia|]. split; [reflexivity|]. intros j Hj. lia.
Defined.

Lemma CallerInFormat_found (stack : list tracelog.Frame) (k : nat) :
  1 <= k ->
  tracelog.CallerInFormat stack (Z.of_nat k - 1) = tracelog.Caller stack k.
Proof.
  intros Hk. unfold tracelog.CallerInFormat.
  destruct (Z.ltb_spec (Z.of_nat k - 1) 0) as [Hlt|Hge]; [lia|].
  replace (S (Z.to_nat (Z.of_nat k - 1))) with k by lia. reflexivity.
Qed.

(** X20: [TextFormatter.Format] hands the embedded formatter the entry it
    leaves, and of the entry it writes the data field "file" and
    nothing else.  When [findFrame] finds no frame the entry is
    untouched; when it finds frame [k], "file" is the trace of that
    very frame: [runtime.Caller(frameNo - 1)] in [Format] is the frame
    [runtime.Caller(frameNo)] was in [findFrame]. *)
Theorem TextFormatter_sets_file_only
  {Out : Type} (newTrace : option tracelog.Frame -> tracelog.Trace)
  (inner : tracelog.Entry -> Out) (stack : list tracelog.Frame)
  (e : tracelog.Entry) :
  let (e', out) := tracelog.TextFormatter_Format newTrace inner stack e in
  out = inner e' /\
  tracelog.Message e' = tracelog.Message e /\
  (forall key, key <> tracelog.FileField ->
               tracelog.Data e' !! key = tracelog.Data e !! key) /\
  (tracelog.findFrame stack = (-1)%Z -> e' = e) /\
  (forall k, tracelog.findFrame stack = Z.of_nat k ->
     tracelog.Data e' !! tracelog.FileField
     = Some (tracelog.trace_String (newTrace (tracelog.Caller stack k)))).
Proof.
  unfold tracelog.TextFormatter_Format.
  destruct (Z.eqb_spec (tracelog.findFrame stack) (-1)) as [Hnone|Hsome]; simpl.
  - repeat split; auto. intros k Hk. lia.
  - repeat split; auto.
    + intros key Hkey. now rewrite lookup_insert_ne.
    + intros Hnone. contradiction.
    + intros k Hk. rewrite lookup_insert_eq, Hk, CallerInFormat_found; [reflexivity|].
      apply findFrame_loop_found in Hk. lia.
Qed.

Lemma TextFormatter_sets_file_only_witness :
  tracelog.Data
    (fst (tracelog.TextFormatter_Format
            (fun fr => match fr with
                       | Some f => tracelog.mkTrace (tracelog.frame_file f) "f"
                       | None => tracelog.mkTrace "" ""
                       end)
            tracelog.Message Cases.stack
            (tracelog.mkEntry ∅ "joined"))) !! tracelog.FileField
  = Some "agent/agent.go".
Proof.
  pose proof (TextFormatter_sets_file_only
                (fun fr => match fr with
                           | Some f => tracelog.mkTrace (tracelog.frame_file f) "f"
                           | None => tracelog.mkTrace "" ""
                           end)
                tracelog.Message Cases.stack (tracelog.mkEntry ∅ "joined")) as H.
  destruct (tracelog.TextFormatter_Format _ _ _ _) as [e' out].
  destruct H as (_ & _ & _ & _ & Hfile).
  exact (Hfile 5 eq_refl).
Defined.

(** X21: [JSONFormatter.Format] writes the data fields "file" and "func"
    and nothing else, both from the trace of the frame [findFrame]
    found, and leaves the entry untouched when none is found. *)
Theorem JSONFormatter_sets_file_and_func_only
  {Out : Type} (newTrace : option tracelog.Frame -> tracelog.Trace)
  (inner : tracelog.Entry -> Out) (stack : list tracelog.Frame)
  (e : tracelog.Entry) :
  let (e', out) := tracelog.JSONFormatter_Format newTrace inner stack e in
  out = inner e' /\
  tracelog.Message e' = tracelog.Message e /\
  (forall key, key <> tracelog.FileField -> key <> tracelog.FunctionField ->
               tracelog.Data e' !! key = tracelog.Data e !! key) /\
  (tracelog.findFrame stack = (-1)%Z -> e' = e) /\
  (forall k, tracelog.findFrame stack = Z.of_nat k ->
     tracelog.Data e' !! tracelog.FileField
     = Some (tracelog.trace_String (newTrace (tracelog.Caller stack k))) /\
     tracelog.Data e' !! tracelog.FunctionField
     = Some (tracelog.trace_Func (newTrace (tracelog.Caller stack k)))).
Proof.
  unfold tracelog.JSONFormatter_Format.
  destruct (Z.eqb_spec (tracelog.findFrame stack) (-1)) as [Hnone|Hsome]; simpl.
  - split; [reflexivity|]. split; [reflexivity|]. split; [auto|]. split; [auto|].
    intros k Hk. lia.
  - split; [reflexivity|]. split; [reflexivity|]. split; [|split].
    + intros key Hfile Hfunc. now rewrite !lookup_insert_ne.
    + intros Hnone. contradiction.
    + intros k Hk.
      assert (Hc : tracelog.CallerInFormat stack (tracelog.findFrame stack - 1)
                   = tracelog.Caller stack k).
      { rewrite Hk. apply CallerInFormat_found.
        apply findFrame_loop_found in Hk. lia. }
      rewrite Hc. split.
      * rewrite lookup_insert_ne by discriminate. now rewrite lookup_insert_eq.
      * now rewrite lookup_insert_eq.
Qed.

Lemma JSONFormatter_sets_file_and_func_only_witness :
  tracelog.Data
    (fst (tracelog.JSONFormatter_Format
            (fun fr => match fr with
                       | Some f => tracelog.mkTrace (tracelog.frame_file f)
                                                    (tracelog.frame_func f)
                       | None => tracelog.mkTrace "" ""
                       end)
            tracelog.Message Cases.stack
            (tracelog.mkEntry ∅ "joined"))) !! tracelog.FunctionField
  = Some "f".
Proof.
  pose proof (JSONFormatter_sets_file_and_func_only
                (fun fr => match fr with
                           | Some f => tracelog.mkTrace (tracelog.frame_file f)
                                                        (tracelog.frame_func f)
                           | None => tracelog.mkTrace "" ""
                           end)
                tracelog.Message Cases.stack (tracelog.mkEntry ∅ "joined")) as H.
  destruct (tracelog.JSONFormatter_Format _ _ _ _) as [e' out].
  destruct H as (_ & _ & _ & _ & Hboth).
  exact (proj2 (Hboth 5 eq_refl)).
Defined.

(** * The order of the nodes *)

Lemma task_open (ctx : Context) (m : serf.Member) (pick : bool) (respc : chan)
      (r : agent) :
  mu r = false -> is_closed (done r) = false -> can_send respc = true ->
  task ctx m pick respc r
  = Some (mkChan (buf respc ++ [response_of ctx r m]) (cap respc), after_task r m).
Proof.
  intros Hmu Hopen Hroom.
  destruct (task_spec ctx m pick respc r Hmu Hroom) as (l & Htask & _ & Hl).
  now rewrite Htask, (Hl Hopen).
Qed.

Lemma runInOrder_exact (ctx : Context) (pending : list serf.Member) :
  forall (respc : chan) (r : agent),
  mu r = false -> is_closed (done r) = false ->
  length (buf respc) + length pending <= cap respc ->
  exists r',
    runInOrder ctx pending respc r
    = Some (mkChan (buf respc ++ map (response_of ctx r) pending) (cap respc), r')
    /\ same_setup r r'.
Proof.
  induction pending as [|m rest IH]; intros respc r Hmu Hopen Hcap; simpl.
  - exists r. unfold ret. rewrite app_nil_r. destruct respc.
    split; [reflexivity|apply same_setup_refl].
  - simpl in Hcap. unfold bind.
    rewrite (task_open _ _ _ _ _ Hmu Hopen (can_send_room _ _ Hcap)).
    pose proof (after_task_same_setup r m) as Hs.
    destruct (IH (mkChan (buf respc ++ [response_of ctx r m]) (cap respc))
                 (after_task r m)) as (r' & Hrun & Hs').
    + now rewrite after_task_mu.
    + destruct Hs as (_&_&_&_&_&_&Hd&_). now rewrite Hd.
    + simpl. rewrite length_app. simpl. lia.
    + exists r'. rewrite Hrun. simpl.
      rewrite (map_response_of_same_setup _ _ _ _ Hs), <- app_assoc.
      split; [reflexivity|]. eapply same_setup_trans; eassumption.
Qed.

Lemma runTasks_exact (ctx : Context) (sched : schedule) :
  forall (pending : list serf.Member) (respc : chan) (r : agent),
  mu r = false -> is_closed (done r) = false ->
  length (buf respc) + length pending <= cap respc ->
  exists r',
    runTasks ctx sched pending respc r
    = Some (mkChan (buf respc
                      ++ map (response_of ctx r) (completion_order sched pending))
                   (cap respc), r')
    /\ same_setup r r'.
Proof.
  induction sched as [|[i pick] sched IH]; intros pending respc r Hmu Hopen Hcap.
  - simpl. now apply runInOrder_exact.
  - simpl. destruct (pending !! (i mod length pending)) as [m|] eqn:Hlook.
    + assert (Hlen : length pending
                     = S (length (delete (i mod length pending) pending))).
      { rewrite (delete_Permutation _ _ _ Hlook) at 1. reflexivity. }
      assert (Hroom : can_send respc = true).
      { apply (can_send_room _ (length (delete (i mod length pending) pending))).
        lia. }
      unfold bind. rewrite (task_open _ _ _ _ _ Hmu Hopen Hroom).
      pose proof (after_task_same_setup r m) as Hs.
      destruct (IH (delete (i mod length pending) pending)
                   (mkChan (buf respc ++ [response_of ctx r m]) (cap respc))
                   (after_task r m)) as (r' & Hrun & Hs').
      * now rewrite after_task_mu.
      * destruct Hs as (_&_&_&_&_&_&Hd&_). now rewrite Hd.
      * simpl. rewrite length_app. simpl. lia.
      * exists r'. rewrite Hrun. simpl.
        rewrite (map_response_of_same_setup _ _ _ _ Hs), <- app_assoc.
        split; [reflexivity|]. eapply same_setup_trans; eassumption.
    + exists r. unfold ret. simpl. rewrite app_nil_r. destruct respc.
      split; [reflexivity|apply same_setup_refl].
Qed.

(** X22: the nodes of a collected status are in the order in which the
    tasks complete, not in the order of the members: while done is not
    closed, the node list is the members' nodes taken in the completion
    order of the schedule (member order when the tasks complete in
    member order). *)
Theorem nodes_in_completion_order
  (ctx : Context) (now : Z) (sched : schedule) (r : agent)
  (members : list serf.Member) :
  serf_Members (serf_client r) = inr members ->
  mu r = false ->
  is_closed (done r) = false ->
  exists systemStatus r',
    collectStatus ctx now sched r = Some (inr systemStatus, r') /\
    pb.SystemStatus_Nodes systemStatus
    = map (node_for ctx r) (completion_order sched members).
Proof.
  intros Hmem Hmu Hopen.
  set (r0 := add_log (LogStartedCollecting (length members) members) r).
  destruct (runTasks_exact ctx sched members (make_chan (length members)) r0
              Hmu Hopen) as (r1 & Hrun & Hs1); [simpl; lia|].
  simpl in Hrun.
  destruct (drain_spec (map (response_of ctx r0) (completion_order sched members))
              (pb.mkSystemStatus pb.SystemStatus_Unknown now []) r1)
    as (r' & Hdrain & _).
  assert (Hnodes : map node_of_response
                     (map (response_of ctx r0) (completion_order sched members))
                   = map (node_for ctx r) (completion_order sched members)).
  { rewrite map_map. apply map_ext. intros m. unfold node_for.
    now rewrite (response_of_same_setup ctx r r0 m (same_setup_add_log _ r)). }
  eexists _, r'. split.
  { unfold collectStatus, bind at 1, get. rewrite Hmem.
    unfold bind at 1, Infof, modify. fold r0.
    unfold bind at 1, collectResponses, bind at 1. rewrite Hrun.
    unfold ret at 1. simpl buf. unfold bind at 1. rewrite Hdrain. reflexivity. }
  simpl. rewrite Hnodes. reflexivity.
Qed.

Lemma nodes_in_completion_order_witness :
  exists systemStatus r',
    collectStatus Background 0 [(1, true)] Cases.agent_a_with_b
    = Some (inr systemStatus, r') /\
    pb.SystemStatus_Nodes systemStatus
    = map (node_for Background Cases.agent_a_with_b)
          (completion_order [(1, true)] [Sample.a; Sample.b]).
Proof.
  apply (nodes_in_completion_order Background 0 [(1, true)]
           Cases.agent_a_with_b [Sample.a; Sample.b]); reflexivity.
Defined.

(** X23: [runChecks] neither takes the mutex nor writes the slot: whatever
    the state of the mutex it returns, having logged one line per
    checker in registry order and nothing else; the status it returns
    bears the agent's name and no member status, which only
    [collectLocalStatus] attaches. *)
Theorem runChecks_logs_and_leaves_slot (ctx : Context) (r : agent) :
  exists status r',
    runChecks ctx r = Some (status, r') /\
    pb.NodeStatus_Name status = name r /\
    pb.NodeStatus_MemberStatus status = None /\
    logged r' = logged r
                ++ map (fun c => LogRunningChecker (health.Name c)) (Checkers r) /\
    localStatus r' = localStatus r /\ mu r' = mu r /\
    agent_cache r' = agent_cache r.
Proof.
  eexists _, _. rewrite runChecks_eq, log_checkers_eq. repeat split.
Qed.
